(** * Outline tree editor (frontend/src/components/OutlineEditor.tsx)

    A shallow embedding of the outline forest ([OutlineNode], types.ts) and
    of the handlers of [OutlineEditor]: [handleUpdateNode], [handleAddChild],
    [handleDeleteNode], [handleAddSibling] and the "add top-level heading"
    button, followed by the properties the specification states about them.

    Modelling choices.
    - [id] and [title] are strings, compared with [String.eqb] ([===]).
    - [level] is a JS number holding an integer, the heading depth; it is
      modelled as an integer of [Z].  [addNode] computes the level of a new
      child as the integer sum [level + 1]; [addNodeJs] computes it as the JS
      number sum, rounded to a double, and is the one used where a statement
      names the level of the new child.  The two agree on the integers from
      [-2^53] up to, not including, [2^53].
    - [Math.random().toString(36).substr(2, 9)] is the only effect of the
      handlers.  The random source is an explicit stream [rnd : nat -> string]
      of the strings it yields, and the handlers that draw from it live in a
      state monad whose state is the number of draws made so far.
    - [onChange(v)] hands the new forest to the caller; a handler is modelled
      by the forest it passes to [onChange]. *)

From Stdlib Require Import List String Ascii ZArith Lia Bool Arith Permutation.
Import ListNotations.
Open Scope string_scope.
Open Scope Z_scope.
Open Scope list_scope.

(** ** Data model (types.ts) *)

#[warnings="-register-all"]
Inductive OutlineNode : Type :=
  mkNode { id : string; title : string; level : Z; children : list OutlineNode }.

Definition Forest := list OutlineNode.

(** [Partial<OutlineNode>]: every field optional. *)
Record Updates : Type := mkUpdates
  { u_id : option string;
    u_title : option string;
    u_level : option Z;
    u_children : option (list OutlineNode) }.

(** [{ ...node, ...updates }] *)
Definition spread (node : OutlineNode) (updates : Updates) : OutlineNode :=
  mkNode (match u_id updates with Some i => i | None => id node end)
         (match u_title updates with Some t => t | None => title node end)
         (match u_level updates with Some l => l | None => level node end)
         (match u_children updates with Some c => c | None => children node end).

(** The literal [{ title: e.target.value }] of [OutlineNodeItem]. *)
Definition titleOnly (t : string) : Updates := mkUpdates None (Some t) None None.

Definition newTitle : string := "新标题".
Definition newTopTitle : string := "新顶级标题".

(** ** The random source as a state monad *)

Module Rand.
Definition M (A : Type) : Type := nat -> A * nat.
Definition ret {A} (a : A) : M A := fun n => (a, n).
Definition bind {A B} (m : M A) (k : A -> M B) : M B :=
  fun n => let (a, n') := m n in k a n'.
(** One call of [Math.random().toString(36).substr(2, 9)]. *)
Definition mint (rnd : nat -> string) : M string := fun n => (rnd n, S n).
Definition mapM {A B} (f : A -> M B) : list A -> M (list B) :=
  fix go (l : list A) : M (list B) :=
    match l with
    | [] => ret []
    | x :: r => bind (f x) (fun y => bind (go r) (fun ys => ret (y :: ys)))
    end.
End Rand.
Import Rand.

Notation "x <- m ;; k" := (bind m (fun x => k))
  (at level 61, m at next level, right associativity).

(** ** handleUpdateNode *)

Fixpoint updateNode (target : string) (updates : Updates) (node : OutlineNode)
  : OutlineNode :=
  if String.eqb (id node) target then spread node updates
  else match node with
       | mkNode i t l [] => node
       | mkNode i t l cs => mkNode i t l (map (updateNode target updates) cs)
       end.

Definition updateRecursive (target : string) (updates : Updates)
  (currentNodes : Forest) : Forest :=
  map (updateNode target updates) currentNodes.

Definition handleUpdateNode (nodes : Forest) (target : string)
  (updates : Updates) : Forest :=
  updateRecursive target updates nodes.

(** ** handleAddChild *)

Fixpoint addNode (rnd : nat -> string) (parentId : string) (node : OutlineNode)
  : M OutlineNode :=
  if String.eqb (id node) parentId then
    fresh <- mint rnd ;;
    let newChild := mkNode fresh newTitle (level node + 1) [] in
    ret (mkNode (id node) (title node) (level node) (children node ++ [newChild]))
  else match node with
       | mkNode i t l [] => ret node
       | mkNode i t l cs => cs' <- mapM (addNode rnd parentId) cs ;; ret (mkNode i t l cs')
       end.

Definition addRecursive (rnd : nat -> string) (parentId : string)
  (currentNodes : Forest) : M Forest :=
  mapM (addNode rnd parentId) currentNodes.

Definition handleAddChild (rnd : nat -> string) (nodes : Forest)
  (parentId : string) : M Forest :=
  addRecursive rnd parentId nodes.

(** ** handleDeleteNode *)

(** [l.filter(p).map(f)] in one pass, so that a recursive call under [f] is
    seen to be on an element of [l]; see [filterMap_eq]. *)
Definition filterMap {A B} (p : A -> bool) (f : A -> B) : list A -> list B :=
  fix go (l : list A) : list B :=
    match l with
    | [] => []
    | x :: r => if p x then f x :: go r else go r
    end.

Definition keeps (target : string) (node : OutlineNode) : bool :=
  negb (String.eqb (id node) target).

Fixpoint deleteNode (target : string) (node : OutlineNode) : OutlineNode :=
  match node with
  | mkNode i t l cs => mkNode i t l (filterMap (keeps target) (deleteNode target) cs)
  end.

Definition deleteRecursive (target : string) (currentNodes : Forest) : Forest :=
  map (deleteNode target) (filter (keeps target) currentNodes).

Definition handleDeleteNode (nodes : Forest) (target : string) : Forest :=
  deleteRecursive target nodes.

(** ** handleAddSibling *)

(** [currentNodes.findIndex(n => n.id === id)], with [None] for [-1]. *)
Fixpoint findIndex (target : string) (l : Forest) : option nat :=
  match l with
  | [] => None
  | x :: r => if String.eqb (id x) target then Some O
              else option_map S (findIndex target r)
  end.

(** [const newNodes = [...l]; newNodes.splice(start, 0, x)] for [start <= l.length]. *)
Definition splice {A} (start : nat) (x : A) (l : list A) : list A :=
  firstn start l ++ x :: skipn start l.

(** The body of [addSiblingRecursive], with the recursive call on the
    children of a node abstracted as [rec]. *)
Definition addSiblingStep (rnd : nat -> string) (target : string)
  (rec : OutlineNode -> M OutlineNode) (currentNodes : Forest) : M Forest :=
  match findIndex target currentNodes with
  | Some index =>
      match nth_error currentNodes index with
      | Some anchor =>
          fresh <- mint rnd ;;
          let sibling := mkNode fresh newTitle (level anchor) [] in
          ret (splice (index + 1) sibling currentNodes)
      | None => ret currentNodes (* not reached: see [findIndex_nth_error] *)
      end
  | None => mapM rec currentNodes
  end.

Fixpoint addSiblingNode (rnd : nat -> string) (target : string)
  (node : OutlineNode) : M OutlineNode :=
  match node with
  | mkNode i t l cs =>
      cs' <- addSiblingStep rnd target (addSiblingNode rnd target) cs ;;
      ret (mkNode i t l cs')
  end.

Definition addSiblingRecursive (rnd : nat -> string) (target : string)
  (currentNodes : Forest) : M Forest :=
  addSiblingStep rnd target (addSiblingNode rnd target) currentNodes.

Definition handleAddSibling (rnd : nat -> string) (nodes : Forest)
  (target : string) : M Forest :=
  addSiblingRecursive rnd target nodes.

(** ** The "add top-level heading" button *)

Definition appendTopLevel (rnd : nat -> string) (nodes : Forest) : M Forest :=
  fresh <- mint rnd ;;
  let newNode := mkNode fresh newTopTitle 1 [] in
  ret (nodes ++ [newNode]).

(** ** The operations of the specification, and sequences of them *)

Definition rename (nodes : Forest) (target : string) (t : string) : Forest :=
  handleUpdateNode nodes target (titleOnly t).

Inductive Op : Type :=
| OpRename (target : string) (t : string)
| OpInsertChild (parentId : string)
| OpInsertSibling (anchorId : string)
| OpDeleteSubtree (target : string)
| OpAppendTopLevel.

Definition applyOp (rnd : nat -> string) (op : Op) (nodes : Forest) : M Forest :=
  match op with
  | OpRename target t => ret (rename nodes target t)
  | OpInsertChild parentId => handleAddChild rnd nodes parentId
  | OpInsertSibling anchorId => handleAddSibling rnd nodes anchorId
  | OpDeleteSubtree target => ret (handleDeleteNode nodes target)
  | OpAppendTopLevel => appendTopLevel rnd nodes
  end.

Fixpoint runOps (rnd : nat -> string) (ops : list Op) (nodes : Forest) : M Forest :=
  match ops with
  | [] => ret nodes
  | op :: rest => nodes' <- applyOp rnd op nodes ;; runOps rnd rest nodes'
  end.

Definition isInsertion (op : Op) : bool :=
  match op with
  | OpInsertChild _ | OpInsertSibling _ | OpAppendTopLevel => true
  | _ => false
  end.

(** ** Observations on forests *)

Fixpoint idsNode (node : OutlineNode) : list string :=
  match node with
  | mkNode i _ _ cs => i :: flat_map idsNode cs
  end.

(** Every id of the forest, at any depth, in document order. *)
Definition ids (nodes : Forest) : list string := flat_map idsNode nodes.

(** The id, title and level of every node, in document order. *)
Definition Label : Type := string * string * Z.

Fixpoint labelsNode (node : OutlineNode) : list Label :=
  match node with
  | mkNode i t l cs => (i, t, l) :: flat_map labelsNode cs
  end.

Definition labels (nodes : Forest) : list Label := flat_map labelsNode nodes.

Fixpoint sizeNode (node : OutlineNode) : nat :=
  match node with
  | mkNode _ _ _ cs => S (list_sum (map sizeNode cs))
  end.

(** Total number of nodes of the forest. *)
Definition size (nodes : Forest) : nat := list_sum (map sizeNode nodes).

(** Depth-first, first-match lookup of a node by id. *)
Definition firstSome {A B} (f : A -> option B) : list A -> option B :=
  fix go (l : list A) : option B :=
    match l with
    | [] => None
    | x :: r => match f x with Some y => Some y | None => go r end
    end.

Fixpoint findIn (target : string) (node : OutlineNode) : option OutlineNode :=
  if String.eqb (id node) target then Some node
  else match node with
       | mkNode _ _ _ cs => firstSome (findIn target) cs
       end.

Definition findNode (target : string) (nodes : Forest) : option OutlineNode :=
  firstSome (findIn target) nodes.

(** Invariant I2 below a parent of level [lvl - 1]: every node of the list has
    level [lvl] and its children satisfy the invariant at [lvl + 1]. *)
Fixpoint levelsNode (lvl : Z) (node : OutlineNode) : bool :=
  match node with
  | mkNode _ _ l cs => Z.eqb l lvl && forallb (levelsNode (lvl + 1)) cs
  end.

Definition levelsFrom (lvl : Z) (nodes : Forest) : bool :=
  forallb (levelsNode lvl) nodes.

Definition levelsOk (nodes : Forest) : bool := levelsFrom 1 nodes.

(** [EditAt R f f']: [f'] is [f] with exactly one node [x], at any depth,
    replaced in its sibling list by the nodes [xs], where [R x xs]; every
    other node, and the order of every sibling list, is as in [f]. *)
Inductive EditAt (R : OutlineNode -> list OutlineNode -> Prop)
  : Forest -> Forest -> Prop :=
| edit_here (l1 : Forest) (x : OutlineNode) (xs l2 : Forest) :
    R x xs -> EditAt R (l1 ++ x :: l2) (l1 ++ xs ++ l2)
| edit_below (l1 : Forest) i t l (cs cs' l2 : Forest) :
    EditAt R cs cs' ->
    EditAt R (l1 ++ mkNode i t l cs :: l2) (l1 ++ mkNode i t l cs' :: l2).

(** The ids drawn while [op] runs on [nodes] after [n] earlier draws. *)
Definition drawn (rnd : nat -> string) (op : Op) (nodes : Forest) (n : nat)
  : list string :=
  map rnd (seq n (snd (applyOp rnd op nodes n) - n)).

(** Along a run, every id drawn is absent from the forest it is inserted in. *)
Fixpoint drawsFresh (rnd : nat -> string) (ops : list Op) (nodes : Forest)
  (n : nat) : Prop :=
  match ops with
  | [] => True
  | op :: rest =>
      (forall s, In s (drawn rnd op nodes n) -> ~ In s (ids nodes)) /\
      drawsFresh rnd rest (fst (applyOp rnd op nodes n)) (snd (applyOp rnd op nodes n))
  end.

(** The four edits of one node [x]. *)
Definition Renamed (x : OutlineNode) (t : string)
  : OutlineNode -> list OutlineNode -> Prop :=
  fun y ys => y = x /\ ys = [mkNode (id x) t (level x) (children x)].

Definition ChildAdded (x : OutlineNode) (fresh : string)
  : OutlineNode -> list OutlineNode -> Prop :=
  fun y ys =>
    y = x /\
    ys = [mkNode (id x) (title x) (level x)
                 (children x ++ [mkNode fresh newTitle (level x + 1) []])].

Definition SiblingAdded (x : OutlineNode) (fresh : string)
  : OutlineNode -> list OutlineNode -> Prop :=
  fun y ys => y = x /\ ys = [x; mkNode fresh newTitle (level x) []].

Definition Removed (x : OutlineNode) : OutlineNode -> list OutlineNode -> Prop :=
  fun y ys => y = x /\ ys = [].

Definition labelId (e : Label) : string := fst (fst e).

(** [AgreeOn rnd1 rnd2 m1 m2]: [m2], drawing from [rnd2], does what [m1]
    does drawing from [rnd1], whenever the ids [m1] draws are the ids [m2]
    draws; the draw counter of [m1] never decreases. *)
Definition AgreeOn (rnd1 rnd2 : nat -> string) {A} (m1 m2 : M A) : Prop :=
  forall n1 n2 : nat,
    (n1 <= snd (m1 n1))%nat /\
    ((forall k, (k < snd (m1 n1) - n1)%nat -> rnd1 (n1 + k)%nat = rnd2 (n2 + k)%nat) ->
     m2 n2 = (fst (m1 n1), (n2 + (snd (m1 n1) - n1))%nat)).

(** [RevealsOn rnd1 rnd2 m1 m2]: [m1], drawing from [rnd1], and [m2],
    drawing from [rnd2], give equal values only if the ids [m1] draws are
    the ids [m2] draws. *)
Definition RevealsOn (rnd1 rnd2 : nat -> string) {A} (m1 m2 : M A) : Prop :=
  forall n1 n2 : nat,
    fst (m1 n1) = fst (m2 n2) ->
    forall k, (k < snd (m1 n1) - n1)%nat -> rnd1 (n1 + k)%nat = rnd2 (n2 + k)%nat.

(** ** Concrete forests used below *)

Definition demoForest : Forest :=
  [mkNode "a" "Arrival" 1 [mkNode "c" "Customs" 2 []; mkNode "d" "Transit" 2 []];
   mkNode "b" "Budget" 1 []].

(** A random source whose first two draws are the strings of
    [Math.random() = 0.5] and [Math.random() = 0.25]. *)
Definition demoDraws (n : nat) : string :=
  match n with O => "i" | _ => "9" end.

(** A forest whose only node has the id that [Math.random() = 0.5] yields. *)
Definition introForest : Forest := [mkNode "i" "Intro" 1 []].

(** A random source that returns [0.5] at every call. *)
Definition sameDraws (n : nat) : string := "i".

(** ** Forests up to titles *)

Fixpoint eraseTitlesNode (node : OutlineNode) : OutlineNode :=
  match node with
  | mkNode i _ l cs => mkNode i "" l (map eraseTitlesNode cs)
  end.

(** The forest with every title blanked: ids, levels, nesting and order. *)
Definition eraseTitles (nodes : Forest) : Forest := map eraseTitlesNode nodes.

(** ** The application shell (frontend/src/App.tsx) *)

(** [outline.filter(n => n.level === 1).length], the number of articles the
    "done" screen announces. *)
Definition articleCount (outline : Forest) : nat :=
  List.length (filter (fun n => Z.eqb (level n) 1) outline).

Module App.

Inductive Step : Type := StepInput | StepOutline | StepGenerating | StepDone.

(** The five [useState] cells of [App]. *)
Record State : Type := mkState
  { step : Step;
    location : string;
    outline : Forest;
    isLoading : bool;
    downloadUrl : option string }.

(** The initial values passed to [useState]. *)
Definition initial : State := mkState StepInput "" [] false None.

Definition setStep (v : Step) (s : State) : State :=
  mkState v (location s) (outline s) (isLoading s) (downloadUrl s).
Definition setLocation (v : string) (s : State) : State :=
  mkState (step s) v (outline s) (isLoading s) (downloadUrl s).
Definition setOutline (v : Forest) (s : State) : State :=
  mkState (step s) (location s) v (isLoading s) (downloadUrl s).
Definition setIsLoading (v : bool) (s : State) : State :=
  mkState (step s) (location s) (outline s) v (downloadUrl s).
Definition setDownloadUrl (v : option string) (s : State) : State :=
  mkState (step s) (location s) (outline s) (isLoading s) v.

(** [handleGenerateOutline], in three parts: up to the [await fetch], the
    rest of the [try] block followed by [finally] when the response is ok,
    and [catch] followed by [finally] otherwise. *)
Definition generateOutlineStart (loc : string) (s : State) : State :=
  setLocation loc (setIsLoading true s).
Definition generateOutlineOk (dataOutline : Forest) (s : State) : State :=
  setIsLoading false (setStep StepOutline (setOutline dataOutline s)).
Definition generateOutlineFail (s : State) : State :=
  setIsLoading false s.

(** [handleGenerateContent], in the same three parts. *)
Definition generateContentStart (s : State) : State :=
  setStep StepGenerating (setIsLoading true s).
Definition generateContentOk (url : string) (s : State) : State :=
  setIsLoading false (setStep StepDone (setDownloadUrl (Some url) s)).
Definition generateContentFail (s : State) : State :=
  setIsLoading false (setStep StepOutline s).

(** The handler suspended at its [await], if any. *)
Inductive Pending : Type := Idle | AwaitOutline | AwaitContent.

(** The state of a session: the cells of [App], the suspended handler and
    the number of ids drawn from the random source so far. *)
Record Sys : Type := mkSys { app : State; pending : Pending; draws : nat }.

Inductive Event : Type :=
| EvSubmit (loc : string)        (* LocationForm calls onSubmit *)
| EvOutlineOk (dataOutline : Forest)
| EvOutlineFail
| EvEdit (op : Op)               (* OutlineEditor calls onChange *)
| EvBack                         (* the "choose another place" button *)
| EvGenerate                     (* the "confirm outline" button *)
| EvContentOk (url : string)
| EvContentFail
| EvReturn.                      (* the "back to editing" button *)

(** What an event does, and [None] when the screen of the current step does
    not offer it: [LocationForm] is rendered in step 'input' and its button is
    disabled while loading; the editor, the back button and the generate
    button (disabled while loading) are rendered in step 'outline'; the
    return button is rendered in step 'done'; a response resumes the handler
    that awaits it. *)
Definition fire (rnd : nat -> string) (e : Event) (s : Sys) : option Sys :=
  match e with
  | EvSubmit loc =>
      match step (app s), isLoading (app s) with
      | StepInput, false =>
          Some (mkSys (generateOutlineStart loc (app s)) AwaitOutline (draws s))
      | _, _ => None
      end
  | EvOutlineOk o =>
      match pending s with
      | AwaitOutline => Some (mkSys (generateOutlineOk o (app s)) Idle (draws s))
      | _ => None
      end
  | EvOutlineFail =>
      match pending s with
      | AwaitOutline => Some (mkSys (generateOutlineFail (app s)) Idle (draws s))
      | _ => None
      end
  | EvEdit op =>
      match step (app s) with
      | StepOutline =>
          let r := applyOp rnd op (outline (app s)) (draws s) in
          Some (mkSys (setOutline (fst r) (app s)) (pending s) (snd r))
      | _ => None
      end
  | EvBack =>
      match step (app s) with
      | StepOutline => Some (mkSys (setStep StepInput (app s)) (pending s) (draws s))
      | _ => None
      end
  | EvGenerate =>
      match step (app s), isLoading (app s) with
      | StepOutline, false =>
          Some (mkSys (generateContentStart (app s)) AwaitContent (draws s))
      | _, _ => None
      end
  | EvContentOk url =>
      match pending s with
      | AwaitContent => Some (mkSys (generateContentOk url (app s)) Idle (draws s))
      | _ => None
      end
  | EvContentFail =>
      match pending s with
      | AwaitContent => Some (mkSys (generateContentFail (app s)) Idle (draws s))
      | _ => None
      end
  | EvReturn =>
      match step (app s) with
      | StepDone => Some (mkSys (setStep StepOutline (app s)) (pending s) (draws s))
      | _ => None
      end
  end.

Fixpoint runEvents (rnd : nat -> string) (es : list Event) (s : Sys) : option Sys :=
  match es with
  | [] => Some s
  | e :: rest =>
      match fire rnd e s with
      | Some s' => runEvents rnd rest s'
      | None => None
      end
  end.

(** A session starts from the initial cells with no handler suspended. *)
Definition start (n : nat) : Sys := mkSys initial Idle n.

(** Every outline a response carries satisfies the level invariant. *)
Definition responsesLevelsOk (es : list Event) : bool :=
  forallb (fun e => match e with EvOutlineOk o => levelsOk o | _ => true end) es.

(** The loading flag is up exactly while a handler is suspended, the
    'generating' screen shows exactly while the content request is awaited,
    an outline request is awaited on the 'input' screen only, and the 'done'
    screen has a download url. *)
Definition consistent (s : Sys) : Prop :=
  (isLoading (app s) = true <-> pending s <> Idle) /\
  (step (app s) = StepGenerating <-> pending s = AwaitContent) /\
  (pending s = AwaitOutline -> step (app s) = StepInput) /\
  (step (app s) = StepDone -> downloadUrl (app s) <> None).

End App.

(** ** The number arithmetic of the child level *)

Definition twoTo53 : Z := 9007199254740992.

(** The integers [l] with [-2^53 <= l < 2^53]: on them the JS number sum
    [l + 1] is the integer sum. *)
Definition safeLevel (l : Z) : bool := (- twoTo53 <=? l) && (l <? twoTo53).

(** The integer-valued double nearest to an integer, ties to the even
    significand (the rounding of IEEE 754 binary64, 53 bits); below the
    largest finite double no overflow occurs. *)
Definition roundToDouble (z : Z) : Z :=
  let m := Z.abs z in
  if m <=? twoTo53 then z
  else
    let e := Z.log2 m - 52 in
    let q := m / 2 ^ e in
    let r := m mod 2 ^ e in
    let half := 2 ^ (e - 1) in
    let q' := if r <? half then q
              else if half <? r then q + 1
              else if Z.even q then q else q + 1 in
    Z.sgn z * (q' * 2 ^ e).

(** [node.level + 1] on a JS number that holds the integer [l]. *)
Definition jsPlusOne (l : Z) : Z := roundToDouble (l + 1).
Arguments jsPlusOne : simpl never.

(** [handleAddChild] with the level of the new child computed as the JS
    number sum of line 104.  [addNode] above computes it as the integer sum;
    the two agree wherever the levels are safe integers
    ([handleAddChildJs_agrees]). *)
Fixpoint addNodeJs (rnd : nat -> string) (parentId : string) (node : OutlineNode)
  : M OutlineNode :=
  if String.eqb (id node) parentId then
    fresh <- mint rnd ;;
    let newChild := mkNode fresh newTitle (jsPlusOne (level node)) [] in
    ret (mkNode (id node) (title node) (level node) (children node ++ [newChild]))
  else match node with
       | mkNode i t l [] => ret node
       | mkNode i t l cs =>
           cs' <- mapM (addNodeJs rnd parentId) cs ;; ret (mkNode i t l cs')
       end.

Definition addRecursiveJs (rnd : nat -> string) (parentId : string)
  (currentNodes : Forest) : M Forest :=
  mapM (addNodeJs rnd parentId) currentNodes.

Definition handleAddChildJs (rnd : nat -> string) (nodes : Forest)
  (parentId : string) : M Forest :=
  addRecursiveJs rnd parentId nodes.

(** The edit of [handleAddChildJs] on the node [x]. *)
Definition ChildAddedJs (x : OutlineNode) (fresh : string)
  : OutlineNode -> list OutlineNode -> Prop :=
  fun y ys =>
    y = x /\
    ys = [mkNode (id x) (title x) (level x)
                 (children x ++ [mkNode fresh newTitle (jsPlusOne (level x)) []])].

(** A forest whose only node has level [2^53]. *)
Definition deepForest : Forest := [mkNode "p" "Plan" twoTo53 []].

(** * Lemmas *)

Ltac notin_list :=
  let H := fresh in
  intros H; simpl in H;
  repeat (destruct H as [H|H]; [discriminate H|]); exact H.

Ltac nodup_list :=
  repeat (apply NoDup_cons; [notin_list|]); apply NoDup_nil.

Ltac fresh_draws :=
  repeat (split; [let s := fresh in let H := fresh in
                  intros s H; vm_compute in H;
                  repeat (destruct H as [H|H]; [subst s; notin_list|]);
                  destruct H|]);
  exact I.

(** ** Induction on forests and unfolding equations *)

Lemma forest_ind_node (P : Forest -> Prop) :
  P [] -> (forall i t l cs r, P cs -> P r -> P (mkNode i t l cs :: r)) ->
  forall node r, P r -> P (node :: r).
Proof.
  intros Hnil Hcons. fix IH 1. intros [i t l cs] r Hr.
  apply Hcons; [|exact Hr].
  induction cs as [|c cs' IHcs]; [exact Hnil | exact (IH c cs' IHcs)].
Qed.

(** Induction on a forest: on the children of its first node and on the
    rest of the list. *)
Lemma forest_ind (P : Forest -> Prop) :
  P [] -> (forall i t l cs r, P cs -> P r -> P (mkNode i t l cs :: r)) ->
  forall f, P f.
Proof.
  intros Hnil Hcons f.
  induction f as [|x r IH]; [exact Hnil | exact (forest_ind_node P Hnil Hcons x r IH)].
Qed.

Lemma filterMap_eq {A B} (p : A -> bool) (f : A -> B) (l : list A) :
  filterMap p f l = map f (filter p l).
Proof.
  induction l as [|x r IH]; simpl; [reflexivity|].
  destruct (p x); simpl; now rewrite IH.
Qed.

(** The recursive equation of [deleteRecursive] as the source has it. *)
Lemma deleteNode_eq target i t l cs :
  deleteNode target (mkNode i t l cs) = mkNode i t l (deleteRecursive target cs).
Proof. simpl. now rewrite filterMap_eq. Qed.

Lemma deleteRecursive_cons target x r :
  deleteRecursive target (x :: r) =
  if String.eqb (id x) target then deleteRecursive target r
  else deleteNode target x :: deleteRecursive target r.
Proof.
  unfold deleteRecursive, keeps. simpl. now destruct (String.eqb (id x) target).
Qed.

Lemma updateNode_eq target u i t l cs :
  updateNode target u (mkNode i t l cs) =
  if String.eqb i target then spread (mkNode i t l cs) u
  else mkNode i t l (updateRecursive target u cs).
Proof. simpl. destruct (String.eqb i target); [reflexivity|]. now destruct cs. Qed.

Lemma updateRecursive_cons target u x r :
  updateRecursive target u (x :: r) =
  updateNode target u x :: updateRecursive target u r.
Proof. reflexivity. Qed.

Lemma mapM_cons {A B} (f : A -> M B) x r n :
  mapM f (x :: r) n =
  (fst (f x n) :: fst (mapM f r (snd (f x n))), snd (mapM f r (snd (f x n)))).
Proof.
  simpl. unfold bind, ret. destruct (f x n) as [y n1]. simpl.
  now destruct (mapM f r n1).
Qed.

Lemma addNode_eq rnd a i t l cs n :
  addNode rnd a (mkNode i t l cs) n =
  if String.eqb i a
  then (mkNode i t l (cs ++ [mkNode (rnd n) newTitle (l + 1) []]), S n)
  else (mkNode i t l (fst (addRecursive rnd a cs n)), snd (addRecursive rnd a cs n)).
Proof.
  simpl. destruct (String.eqb i a); [reflexivity|].
  destruct cs as [|c cs]; [reflexivity|].
  unfold addRecursive, bind, ret.
  now destruct (mapM (addNode rnd a) (c :: cs) n).
Qed.

Lemma addSiblingNode_eq rnd a i t l cs n :
  addSiblingNode rnd a (mkNode i t l cs) n =
  (mkNode i t l (fst (addSiblingRecursive rnd a cs n)),
   snd (addSiblingRecursive rnd a cs n)).
Proof.
  simpl. unfold addSiblingRecursive, bind, ret.
  now destruct (addSiblingStep rnd a (addSiblingNode rnd a) cs n).
Qed.

Lemma ids_cons i t l cs r : ids (mkNode i t l cs :: r) = i :: ids cs ++ ids r.
Proof. reflexivity. Qed.

Lemma ids_app f g : ids (f ++ g) = ids f ++ ids g.
Proof. apply flat_map_app. Qed.

Lemma labels_cons i t l cs r :
  labels (mkNode i t l cs :: r) = (i, t, l) :: labels cs ++ labels r.
Proof. reflexivity. Qed.

Lemma labels_app f g : labels (f ++ g) = labels f ++ labels g.
Proof. apply flat_map_app. Qed.

Lemma size_cons i t l cs r : size (mkNode i t l cs :: r) = S (size cs + size r).
Proof. reflexivity. Qed.

Lemma findNode_cons a i t l cs r :
  findNode a (mkNode i t l cs :: r) =
  if String.eqb i a then Some (mkNode i t l cs)
  else match findNode a cs with Some y => Some y | None => findNode a r end.
Proof.
  unfold findNode. simpl. now destruct (String.eqb i a).
Qed.

Lemma addRecursive_cons rnd a x r n :
  addRecursive rnd a (x :: r) n =
  (fst (addNode rnd a x n) :: fst (addRecursive rnd a r (snd (addNode rnd a x n))),
   snd (addRecursive rnd a r (snd (addNode rnd a x n)))).
Proof. apply mapM_cons. Qed.

Lemma findIndex_cons a x r :
  findIndex a (x :: r) =
  if String.eqb (id x) a then Some O else option_map S (findIndex a r).
Proof. reflexivity. Qed.

(** When no node of the list has the id, [addSiblingRecursive] maps itself
    over the children of every node. *)
Lemma addSiblingRecursive_cons rnd a x r n :
  findIndex a (x :: r) = None ->
  findIndex a r = None /\
  addSiblingRecursive rnd a (x :: r) n =
  (fst (addSiblingNode rnd a x n)
     :: fst (addSiblingRecursive rnd a r (snd (addSiblingNode rnd a x n))),
   snd (addSiblingRecursive rnd a r (snd (addSiblingNode rnd a x n)))).
Proof.
  intros H. assert (Hr : findIndex a r = None).
  { rewrite findIndex_cons in H. destruct (String.eqb (id x) a); [discriminate|].
    now destruct (findIndex a r). }
  split; [exact Hr|].
  unfold addSiblingRecursive, addSiblingStep. rewrite H, Hr. apply mapM_cons.
Qed.

Lemma findIndex_None a f : ~ In a (ids f) -> findIndex a f = None.
Proof.
  induction f as [|[i t l cs] r IH]; [reflexivity|].
  rewrite ids_cons, findIndex_cons. simpl. intros H.
  destruct (String.eqb_spec i a) as [->|_]; [tauto|].
  rewrite IH; [reflexivity|]. rewrite in_app_iff in H. tauto.
Qed.

(** The index [findIndex] returns is within the list: the [None] branch of
    [addSiblingStep] on [nth_error] is never taken. *)
Lemma findIndex_nth_error a f k :
  findIndex a f = Some k ->
  exists l1 x l2,
    f = l1 ++ x :: l2 /\ List.length l1 = k /\ id x = a /\ nth_error f k = Some x.
Proof.
  revert k. induction f as [|y r IH]; intros k; [discriminate|].
  rewrite findIndex_cons. destruct (String.eqb_spec (id y) a) as [E|_].
  - intros [= <-]. now exists [], y, r.
  - destruct (findIndex a r) as [k'|]; [|discriminate]. intros [= <-].
    destruct (IH k' eq_refl) as (l1 & x & l2 & -> & Hl & Hx & Hn).
    exists (y :: l1), x, l2. simpl. repeat split; auto.
Qed.

Lemma splice_after {A} (l1 : list A) x y l2 :
  splice (List.length l1 + 1) y (l1 ++ x :: l2) = l1 ++ x :: y :: l2.
Proof.
  unfold splice. replace (List.length l1 + 1)%nat with (List.length (l1 ++ [x])).
  2:{ rewrite List.length_app. reflexivity. }
  replace (l1 ++ x :: l2) with ((l1 ++ [x]) ++ l2) by now rewrite <- app_assoc.
  rewrite firstn_app, skipn_app, firstn_all, skipn_all, Nat.sub_diag. simpl.
  rewrite app_nil_r, <- app_assoc. reflexivity.
Qed.

Lemma addSiblingRecursive_found rnd a l1 x l2 n :
  findIndex a (l1 ++ x :: l2) = Some (List.length l1) ->
  addSiblingRecursive rnd a (l1 ++ x :: l2) n =
  (l1 ++ x :: mkNode (rnd n) newTitle (level x) [] :: l2, S n).
Proof.
  intros H. unfold addSiblingRecursive, addSiblingStep. rewrite H.
  rewrite nth_error_app2, Nat.sub_diag by lia.
  change (nth_error (x :: l2) 0) with (Some x).
  unfold bind, mint, ret. cbv beta iota zeta. now rewrite splice_after.
Qed.

(** ** An id that occurs nowhere *)

Section Absent.
Variable rnd : nat -> string.
Variable a : string.

Lemma updateRecursive_absent u f :
  ~ In a (ids f) -> updateRecursive a u f = f.
Proof.
  induction f as [|i t l cs r IHcs IHr] using forest_ind; [reflexivity|].
  rewrite ids_cons. intros H. simpl in H. rewrite in_app_iff in H.
  rewrite updateRecursive_cons, updateNode_eq.
  destruct (String.eqb_spec i a) as [->|_]; [tauto|].
  rewrite IHcs, IHr by tauto. reflexivity.
Qed.

Lemma addRecursive_absent f :
  ~ In a (ids f) -> forall n, addRecursive rnd a f n = (f, n).
Proof.
  induction f as [|i t l cs r IHcs IHr] using forest_ind; [reflexivity|].
  rewrite ids_cons. intros H n. simpl in H. rewrite in_app_iff in H.
  rewrite addRecursive_cons, addNode_eq.
  destruct (String.eqb_spec i a) as [->|_]; [tauto|].
  rewrite IHcs by tauto. simpl. rewrite IHr by tauto. reflexivity.
Qed.

Lemma addSiblingRecursive_absent f :
  ~ In a (ids f) -> forall n, addSiblingRecursive rnd a f n = (f, n).
Proof.
  induction f as [|i t l cs r IHcs IHr] using forest_ind; [reflexivity|].
  intros H n. pose proof (findIndex_None _ _ H) as Hf.
  destruct (addSiblingRecursive_cons rnd _ _ _ n Hf) as [_ ->].
  rewrite ids_cons in H. simpl in H. rewrite in_app_iff in H.
  rewrite addSiblingNode_eq, IHcs by tauto. simpl.
  rewrite IHr by tauto. reflexivity.
Qed.

Lemma deleteRecursive_absent f :
  ~ In a (ids f) -> deleteRecursive a f = f.
Proof.
  induction f as [|i t l cs r IHcs IHr] using forest_ind; [reflexivity|].
  rewrite ids_cons. intros H. simpl in H. rewrite in_app_iff in H.
  rewrite deleteRecursive_cons. simpl id.
  destruct (String.eqb_spec i a) as [->|_]; [tauto|].
  rewrite deleteNode_eq, IHcs, IHr by tauto. reflexivity.
Qed.
End Absent.

(** ** Lookup by id *)

Lemma findNode_None a f : findNode a f = None <-> ~ In a (ids f).
Proof.
  induction f as [|i t l cs r IHcs IHr] using forest_ind; [simpl; tauto|].
  rewrite findNode_cons, ids_cons. simpl. rewrite in_app_iff.
  destruct (String.eqb_spec i a) as [->|Hne].
  - split; [discriminate | tauto].
  - destruct (findNode a cs); [split; [discriminate | tauto] | tauto].
Qed.

Lemma findNode_Some a f x : findNode a f = Some x -> id x = a /\ In a (ids f).
Proof.
  intros H. split.
  - revert H. induction f as [|i t l cs r IHcs IHr] using forest_ind; [discriminate|].
    rewrite findNode_cons. destruct (String.eqb_spec i a) as [->|Hne].
    + now intros [= <-].
    + destruct (findNode a cs); [intros [= <-]; now apply IHcs | exact IHr].
  - destruct (in_dec string_dec a (ids f)) as [|Hn]; [assumption|].
    apply findNode_None in Hn. congruence.
Qed.

Lemma findNode_app a f g :
  findNode a (f ++ g) =
  match findNode a f with Some y => Some y | None => findNode a g end.
Proof.
  unfold findNode. induction f as [|x r IH]; [reflexivity|].
  simpl. now destruct (findIn a x).
Qed.

Lemma NoDup_app_inv {A} (l1 l2 : list A) :
  NoDup (l1 ++ l2) ->
  NoDup l1 /\ NoDup l2 /\ (forall z, In z l1 -> ~ In z l2).
Proof.
  intros H. split; [now apply NoDup_app_remove_r in H|].
  split; [now apply NoDup_app_remove_l in H|].
  induction l1 as [|y l1 IH]; [intros z []|].
  simpl in H. apply NoDup_cons_iff in H. destruct H as [Hy H].
  intros z [<-|Hz]; [rewrite in_app_iff in Hy; tauto | now apply IH].
Qed.

(** The parts of [NoDup (ids (x :: r))]. *)
Lemma NoDup_ids_cons i t l cs r :
  NoDup (ids (mkNode i t l cs :: r)) ->
  ~ In i (ids cs) /\ ~ In i (ids r) /\ NoDup (ids cs) /\ NoDup (ids r) /\
  (forall z, In z (ids cs) -> ~ In z (ids r)).
Proof.
  rewrite ids_cons. intros H. apply NoDup_cons_iff in H. destruct H as [Hi H].
  rewrite in_app_iff in Hi. apply NoDup_app_inv in H. tauto.
Qed.

(** With unique ids, a top-level node is the one lookup finds for its id. *)
Lemma findNode_top l1 x l2 :
  NoDup (ids (l1 ++ x :: l2)) -> findNode (id x) (l1 ++ x :: l2) = Some x.
Proof.
  intros H. rewrite ids_app in H. apply NoDup_app_inv in H.
  destruct H as (_ & _ & H).
  rewrite findNode_app.
  destruct (findNode (id x) l1) as [y|] eqn:E.
  - apply findNode_Some in E. destruct E as [_ E]. exfalso. apply (H _ E).
    destruct x. simpl. now left.
  - destruct x as [i t l cs]. rewrite findNode_cons. simpl.
    now rewrite String.eqb_refl.
Qed.

(** ** Rewriting one sibling list *)

Section EditAtFacts.
Variable R : OutlineNode -> list OutlineNode -> Prop.

Lemma EditAt_frame l1 l2 f f' :
  EditAt R f f' -> EditAt R (l1 ++ f ++ l2) (l1 ++ f' ++ l2).
Proof.
  intros H. destruct H as [m1 x xs m2 Hx | m1 i t l cs cs' m2 Hcs].
  - replace (l1 ++ (m1 ++ x :: m2) ++ l2) with ((l1 ++ m1) ++ x :: (m2 ++ l2))
      by (repeat rewrite <- app_assoc; reflexivity).
    replace (l1 ++ (m1 ++ xs ++ m2) ++ l2) with ((l1 ++ m1) ++ xs ++ (m2 ++ l2))
      by (repeat rewrite <- app_assoc; reflexivity).
    now constructor.
  - replace (l1 ++ (m1 ++ mkNode i t l cs :: m2) ++ l2)
      with ((l1 ++ m1) ++ mkNode i t l cs :: (m2 ++ l2))
      by (repeat rewrite <- app_assoc; reflexivity).
    replace (l1 ++ (m1 ++ mkNode i t l cs' :: m2) ++ l2)
      with ((l1 ++ m1) ++ mkNode i t l cs' :: (m2 ++ l2))
      by (repeat rewrite <- app_assoc; reflexivity).
    now constructor.
Qed.

Lemma EditAt_cons x f f' : EditAt R f f' -> EditAt R (x :: f) (x :: f').
Proof.
  intros H. apply (EditAt_frame [x] []) in H.
  now rewrite !app_nil_r in H.
Qed.

Lemma EditAt_head x xs r : R x xs -> EditAt R (x :: r) (xs ++ r).
Proof. intros H. exact (edit_here R [] x xs r H). Qed.

Lemma EditAt_child i t l cs cs' r :
  EditAt R cs cs' -> EditAt R (mkNode i t l cs :: r) (mkNode i t l cs' :: r).
Proof. intros H. exact (edit_below R [] i t l cs cs' r H). Qed.
End EditAtFacts.

(** ** An id that occurs once *)

Section Present.
Variable rnd : nat -> string.
Variable a : string.

Lemma updateRecursive_present t' f :
  NoDup (ids f) -> forall x, findNode a f = Some x ->
  EditAt (Renamed x t') f (updateRecursive a (titleOnly t') f).
Proof.
  induction f as [|i t l cs r IHcs IHr] using forest_ind; [discriminate|].
  intros Hnd x. apply NoDup_ids_cons in Hnd.
  destruct Hnd as (Hics & Hir & Hcs & Hr & Hdisj).
  rewrite findNode_cons, updateRecursive_cons, updateNode_eq.
  destruct (String.eqb_spec i a) as [->|Hne].
  - intros [= <-]. rewrite (updateRecursive_absent a _ r Hir).
    apply (EditAt_head _ _ [_]). split; reflexivity.
  - destruct (findNode a cs) as [y|] eqn:E.
    + intros [= <-]. pose proof (proj2 (findNode_Some _ _ _ E)) as Hin.
      rewrite (updateRecursive_absent a _ r (Hdisj _ Hin)).
      apply EditAt_child. now apply IHcs.
    + intros Hx. apply findNode_None in E.
      rewrite (updateRecursive_absent a _ cs E).
      apply EditAt_cons. now apply IHr.
Qed.

Lemma addRecursive_present f :
  NoDup (ids f) -> forall x, findNode a f = Some x -> forall n,
  snd (addRecursive rnd a f n) = S n /\
  EditAt (ChildAdded x (rnd n)) f (fst (addRecursive rnd a f n)).
Proof.
  induction f as [|i t l cs r IHcs IHr] using forest_ind; [discriminate|].
  intros Hnd x. apply NoDup_ids_cons in Hnd.
  destruct Hnd as (Hics & Hir & Hcs & Hr & Hdisj).
  rewrite findNode_cons. intros Hx n. rewrite addRecursive_cons, addNode_eq.
  destruct (String.eqb_spec i a) as [->|Hne].
  - injection Hx as <-. simpl fst. simpl snd.
    rewrite (addRecursive_absent rnd a r Hir). simpl. split; [reflexivity|].
    apply (EditAt_head _ _ [_]). split; reflexivity.
  - destruct (findNode a cs) as [y|] eqn:E.
    + injection Hx as <-. pose proof (proj2 (findNode_Some _ _ _ E)) as Hin.
      destruct (IHcs Hcs _ eq_refl n) as [Hs He]. simpl fst. simpl snd.
      rewrite (addRecursive_absent rnd a r (Hdisj _ Hin)). simpl.
      split; [exact Hs|]. now apply EditAt_child.
    + apply findNode_None in E.
      rewrite (addRecursive_absent rnd a cs E). simpl fst. simpl snd.
      destruct (IHr Hr _ Hx n) as [Hs He]. split; [exact Hs|].
      now apply EditAt_cons.
Qed.

Lemma addSiblingRecursive_present f :
  NoDup (ids f) -> forall x, findNode a f = Some x -> forall n,
  snd (addSiblingRecursive rnd a f n) = S n /\
  EditAt (SiblingAdded x (rnd n)) f (fst (addSiblingRecursive rnd a f n)).
Proof.
  induction f as [|i t l cs r IHcs IHr] using forest_ind; [discriminate|].
  intros Hnd x Hx n.
  destruct (findIndex a (mkNode i t l cs :: r)) as [k|] eqn:Ek.
  - destruct (findIndex_nth_error _ _ _ Ek) as (l1 & y & l2 & Hf & Hk & Hy & _).
    rewrite Hf in *. subst k.
    rewrite (addSiblingRecursive_found rnd a l1 y l2 n Ek). simpl.
    split; [reflexivity|].
    pose proof (findNode_top _ _ _ Hnd) as Ht. rewrite Hy, Hx in Ht.
    injection Ht as ->.
    apply (edit_here _ l1 y [y; _] l2). split; reflexivity.
  - destruct (addSiblingRecursive_cons rnd _ _ _ n Ek) as [Er ->].
    rewrite addSiblingNode_eq. simpl fst. simpl snd.
    apply NoDup_ids_cons in Hnd.
    destruct Hnd as (Hics & Hir & Hcs & Hr & Hdisj).
    rewrite findNode_cons in Hx. rewrite findIndex_cons in Ek. simpl in Ek.
    destruct (String.eqb i a); [discriminate|].
    destruct (findNode a cs) as [y|] eqn:E.
    + injection Hx as <-. pose proof (proj2 (findNode_Some _ _ _ E)) as Hin.
      destruct (IHcs Hcs _ eq_refl n) as [Hs He].
      rewrite (addSiblingRecursive_absent rnd a r (Hdisj _ Hin)). simpl.
      split; [exact Hs|]. now apply EditAt_child.
    + apply findNode_None in E.
      rewrite (addSiblingRecursive_absent rnd a cs E). simpl fst. simpl snd.
      destruct (IHr Hr _ Hx n) as [Hs He]. split; [exact Hs|].
      now apply EditAt_cons.
Qed.

Lemma deleteRecursive_present f :
  NoDup (ids f) -> forall x, findNode a f = Some x ->
  EditAt (Removed x) f (deleteRecursive a f).
Proof.
  induction f as [|i t l cs r IHcs IHr] using forest_ind; [discriminate|].
  intros Hnd x. apply NoDup_ids_cons in Hnd.
  destruct Hnd as (Hics & Hir & Hcs & Hr & Hdisj).
  rewrite findNode_cons, deleteRecursive_cons. simpl id.
  destruct (String.eqb_spec i a) as [->|Hne].
  - intros [= <-]. rewrite (deleteRecursive_absent a r Hir).
    apply (EditAt_head _ _ []). split; reflexivity.
  - rewrite deleteNode_eq. destruct (findNode a cs) as [y|] eqn:E.
    + intros [= <-]. pose proof (proj2 (findNode_Some _ _ _ E)) as Hin.
      rewrite (deleteRecursive_absent a r (Hdisj _ Hin)).
      apply EditAt_child. now apply IHcs.
    + intros Hx. apply findNode_None in E.
      rewrite (deleteRecursive_absent a cs E).
      apply EditAt_cons. now apply IHr.
Qed.
End Present.

(** ** Labels, ids and sizes under an edit *)

Lemma ids_labels f : ids f = map labelId (labels f).
Proof.
  induction f as [|i t l cs r IHcs IHr] using forest_ind; [reflexivity|].
  rewrite ids_cons, labels_cons. simpl. now rewrite map_app, IHcs, IHr.
Qed.

Lemma size_labels f : size f = List.length (labels f).
Proof.
  induction f as [|i t l cs r IHcs IHr] using forest_ind; [reflexivity|].
  rewrite size_cons, labels_cons. simpl. now rewrite List.length_app, IHcs, IHr.
Qed.

Lemma labels_node x r : labels (x :: r) = labelsNode x ++ labels r.
Proof. reflexivity. Qed.

Lemma EditAt_labels R f f' :
  EditAt R f f' ->
  exists l1 l2 y ys,
    R y ys /\ labels f = l1 ++ labelsNode y ++ l2 /\
    labels f' = l1 ++ labels ys ++ l2.
Proof.
  induction 1 as [l1 x xs l2 Hx | l1 i t l cs cs' l2 _ IH].
  - exists (labels l1), (labels l2), x, xs. split; [exact Hx|].
    now rewrite !labels_app, labels_node.
  - destruct IH as (m1 & m2 & y & ys & Hy & E & E').
    exists (labels l1 ++ (i, t, l) :: m1), (m2 ++ labels l2), y, ys.
    split; [exact Hy|]. rewrite !labels_app, !labels_cons, E, E'.
    repeat (rewrite <- ?app_assoc; simpl). split; reflexivity.
Qed.

Lemma Add_map {A B} (g : A -> B) a l l' :
  Add a l l' -> Add (g a) (map g l) (map g l').
Proof. induction 1; simpl; now constructor. Qed.

Lemma Add_mid {A} (e : A) l1 m l2 :
  Add e (l1 ++ m ++ l2) (l1 ++ (m ++ [e]) ++ l2).
Proof.
  rewrite (app_assoc l1 m l2), <- (app_assoc m [e] l2), (app_assoc l1 m).
  apply Add_app.
Qed.

Lemma labels_child_added i t l cs ei et el :
  labels [mkNode i t l (cs ++ [mkNode ei et el []])]
  = labelsNode (mkNode i t l cs) ++ [(ei, et, el)].
Proof.
  unfold labels at 1. simpl.
  fold (labels (cs ++ [mkNode ei et el []])). rewrite labels_app.
  simpl. now rewrite !app_nil_r.
Qed.

Lemma ChildAdded_labels x s f f' :
  EditAt (ChildAdded x s) f f' ->
  Add (s, newTitle, level x + 1) (labels f) (labels f').
Proof.
  intros H. apply EditAt_labels in H.
  destruct H as (l1 & l2 & y & ys & [-> ->] & -> & ->).
  destruct x as [i t l cs]. cbn [id title level children].
  rewrite labels_child_added. apply Add_mid.
Qed.

Lemma SiblingAdded_labels x s f f' :
  EditAt (SiblingAdded x s) f f' ->
  Add (s, newTitle, level x) (labels f) (labels f').
Proof.
  intros H. apply EditAt_labels in H.
  destruct H as (l1 & l2 & y & ys & [-> ->] & -> & ->).
  change (labels [x; mkNode s newTitle (level x) []])
    with (labelsNode x ++ [(s, newTitle, level x)]).
  apply Add_mid.
Qed.

Lemma Add_labels_ids e f f' :
  Add e (labels f) (labels f') -> Add (labelId e) (ids f) (ids f').
Proof. rewrite !ids_labels. apply Add_map. Qed.

Lemma Add_labels_size e f f' :
  Add e (labels f) (labels f') -> size f' = (size f + 1)%nat.
Proof.
  intros H. apply Add_length in H. rewrite !size_labels, H. lia.
Qed.

Lemma appendTopLevel_labels rnd f n :
  Add (rnd n, newTopTitle, 1) (labels f) (labels (fst (appendTopLevel rnd f n))).
Proof.
  simpl. rewrite labels_app. simpl.
  rewrite <- (app_nil_r (labels f)) at 1. apply Add_app.
Qed.

(** ** The level invariant *)

Lemma levelsFrom_cons lvl i t l cs r :
  levelsFrom lvl (mkNode i t l cs :: r) = true <->
  l = lvl /\ levelsFrom (lvl + 1) cs = true /\ levelsFrom lvl r = true.
Proof.
  unfold levelsFrom. simpl. rewrite !andb_true_iff, Z.eqb_eq. tauto.
Qed.

Lemma levelsFrom_app lvl f g :
  levelsFrom lvl (f ++ g) = true <->
  levelsFrom lvl f = true /\ levelsFrom lvl g = true.
Proof. unfold levelsFrom. now rewrite forallb_app, andb_true_iff. Qed.

Section Levels.
Variable rnd : nat -> string.
Variable a : string.

Lemma updateRecursive_levels t' f : forall lvl,
  levelsFrom lvl f = true ->
  levelsFrom lvl (updateRecursive a (titleOnly t') f) = true.
Proof.
  induction f as [|i t l cs r IHcs IHr] using forest_ind; [easy|].
  intros lvl H. apply levelsFrom_cons in H. destruct H as (Hl & Hcs & Hr).
  rewrite updateRecursive_cons, updateNode_eq.
  destruct (String.eqb i a); apply levelsFrom_cons; auto.
Qed.

Lemma addRecursive_levels f : forall lvl n,
  levelsFrom lvl f = true ->
  levelsFrom lvl (fst (addRecursive rnd a f n)) = true.
Proof.
  induction f as [|i t l cs r IHcs IHr] using forest_ind; [easy|].
  intros lvl n H. apply levelsFrom_cons in H. destruct H as (Hl & Hcs & Hr).
  rewrite addRecursive_cons, addNode_eq. simpl fst.
  destruct (String.eqb i a); apply levelsFrom_cons;
    repeat split; auto.
  apply levelsFrom_app. split; [assumption|].
  apply levelsFrom_cons. subst l. easy.
Qed.

Lemma addSiblingRecursive_levels f : forall lvl n,
  levelsFrom lvl f = true ->
  levelsFrom lvl (fst (addSiblingRecursive rnd a f n)) = true.
Proof.
  induction f as [|i t l cs r IHcs IHr] using forest_ind; [easy|].
  intros lvl n H.
  destruct (findIndex a (mkNode i t l cs :: r)) as [k|] eqn:Ek.
  - destruct (findIndex_nth_error _ _ _ Ek) as (l1 & y & l2 & Hf & Hk & Hy & _).
    rewrite Hf in *. subst k.
    rewrite (addSiblingRecursive_found rnd a l1 y l2 n Ek). simpl fst.
    apply levelsFrom_app in H. destruct H as [H1 H2].
    apply levelsFrom_app. split; [assumption|].
    destruct y as [yi yt yl ycs].
    apply levelsFrom_cons in H2. destruct H2 as (Hl & Hcs & Hr).
    apply levelsFrom_cons. repeat split; auto.
    apply levelsFrom_cons. easy.
  - destruct (addSiblingRecursive_cons rnd _ _ _ n Ek) as [_ ->].
    rewrite addSiblingNode_eq. simpl fst. simpl snd.
    apply levelsFrom_cons in H. destruct H as (Hl & Hcs & Hr).
    apply levelsFrom_cons. auto.
Qed.

Lemma deleteRecursive_levels f : forall lvl,
  levelsFrom lvl f = true -> levelsFrom lvl (deleteRecursive a f) = true.
Proof.
  induction f as [|i t l cs r IHcs IHr] using forest_ind; [easy|].
  intros lvl H. apply levelsFrom_cons in H. destruct H as (Hl & Hcs & Hr).
  rewrite deleteRecursive_cons. simpl id.
  destruct (String.eqb i a); [auto|].
  rewrite deleteNode_eq. apply levelsFrom_cons. auto.
Qed.
End Levels.

Lemma appendTopLevel_levels rnd f n :
  levelsOk f = true -> levelsOk (fst (appendTopLevel rnd f n)) = true.
Proof.
  unfold levelsOk. intros H. simpl. apply levelsFrom_app. split; [assumption|].
  reflexivity.
Qed.

Lemma applyOp_levels rnd op f n :
  levelsOk f = true -> levelsOk (fst (applyOp rnd op f n)) = true.
Proof.
  destruct op; simpl.
  - apply updateRecursive_levels.
  - apply addRecursive_levels.
  - apply addSiblingRecursive_levels.
  - apply deleteRecursive_levels.
  - apply appendTopLevel_levels.
Qed.

Lemma runOps_cons rnd op rest f n :
  runOps rnd (op :: rest) f n =
  runOps rnd rest (fst (applyOp rnd op f n)) (snd (applyOp rnd op f n)).
Proof.
  simpl. unfold bind. now destruct (applyOp rnd op f n).
Qed.

(** ** Deleting twice *)

Lemma deleteRecursive_idem a f :
  deleteRecursive a (deleteRecursive a f) = deleteRecursive a f.
Proof.
  induction f as [|i t l cs r IHcs IHr] using forest_ind; [reflexivity|].
  rewrite deleteRecursive_cons. simpl id.
  destruct (String.eqb i a) eqn:E; [exact IHr|].
  rewrite deleteNode_eq, deleteRecursive_cons. simpl id.
  rewrite E, deleteNode_eq, IHcs, IHr. reflexivity.
Qed.

(** ** Dependence on the random source *)

Section Agreement.
Variables rnd1 rnd2 : nat -> string.

Local Abbreviation Agree := (AgreeOn rnd1 rnd2).






End Agreement.

(** ** Uniqueness of ids along a run *)

Lemma drawn_one rnd op f n :
  snd (applyOp rnd op f n) = S n -> drawn rnd op f n = [rnd n].
Proof.
  intros H. unfold drawn. rewrite H.
  replace (S n - n)%nat with 1%nat by lia. reflexivity.
Qed.

Lemma NoDup_ids_Add e f f' :
  Add e (labels f) (labels f') ->
  NoDup (ids f) -> ~ In (labelId e) (ids f) -> NoDup (ids f').
Proof.
  intros H Hnd Hs. apply Add_labels_ids in H.
  apply (NoDup_Add H). now split.
Qed.

Lemma applyOp_unique rnd op f n :
  NoDup (ids f) -> isInsertion op = true ->
  (forall s, In s (drawn rnd op f n) -> ~ In s (ids f)) ->
  NoDup (ids (fst (applyOp rnd op f n))).
Proof.
  intros Hnd Hop Hfresh. destruct op as [a t|a|a|a|]; try discriminate.
  - destruct (findNode a f) as [x|] eqn:E.
    + destruct (addRecursive_present rnd a f Hnd x E n) as [Hs He].
      rewrite (drawn_one rnd (OpInsertChild a) f n Hs) in Hfresh.
      apply ChildAdded_labels in He.
      apply (NoDup_ids_Add _ f _ He Hnd).
      apply Hfresh. now left.
    + apply findNode_None in E. simpl. unfold handleAddChild.
      now rewrite (addRecursive_absent rnd a f E).
  - destruct (findNode a f) as [x|] eqn:E.
    + destruct (addSiblingRecursive_present rnd a f Hnd x E n) as [Hs He].
      rewrite (drawn_one rnd (OpInsertSibling a) f n Hs) in Hfresh.
      apply SiblingAdded_labels in He.
      apply (NoDup_ids_Add _ f _ He Hnd).
      apply Hfresh. now left.
    + apply findNode_None in E. simpl. unfold handleAddSibling.
      now rewrite (addSiblingRecursive_absent rnd a f E).
  - rewrite (drawn_one rnd OpAppendTopLevel f n eq_refl) in Hfresh.
    apply (NoDup_ids_Add _ f _ (appendTopLevel_labels rnd f n) Hnd).
    apply Hfresh. now left.
Qed.

(** * Properties of the specification *)

(** C1 (as stated): for every sequence of insertions from a forest with unique
    ids, all ids of the result are unique, each new id being different from
    the ids already in the forest.  This fails: the id drawn from
    [Math.random] is not compared with the ids of the forest.  On the forest
    whose only node has id "i", insertChild with a draw of [0.5], whose string
    is "i", gives the new child the id of its parent. *)
Lemma unique_ids_counterexample :
  NoDup (ids introForest) /\
  forallb isInsertion [OpInsertChild "i"] = true /\
  fst (runOps sameDraws [OpInsertChild "i"] introForest O)
  = [mkNode "i" "Intro" 1 [mkNode "i" newTitle 2 []]] /\
  ~ NoDup (ids (fst (runOps sameDraws [OpInsertChild "i"] introForest O))).
Proof.
  split; [vm_compute; nodup_list|]. split; [reflexivity|].
  split; [reflexivity|].
  vm_compute. intros H. inversion H as [|? ? Hin _]. apply Hin. now left.
Qed.

(** C1 (amended): for every forest with unique ids and every sequence of
    insertChild, insertSibling and appendTopLevel, if every id drawn from the
    random source during an operation is absent from the forest that
    operation is applied to, then all ids of the resulting forest are
    unique. *)
Theorem unique_ids_preserved_when_fresh rnd ops : forall f n,
  NoDup (ids f) -> forallb isInsertion ops = true -> drawsFresh rnd ops f n ->
  NoDup (ids (fst (runOps rnd ops f n))).
Proof.
  induction ops as [|op rest IH]; intros f n Hnd Hops Hfresh; [exact Hnd|].
  simpl in Hops. apply andb_true_iff in Hops. destruct Hops as [Hop Hrest].
  destruct Hfresh as [Hnow Hlater]. rewrite runOps_cons.
  apply IH; [|exact Hrest|exact Hlater].
  now apply applyOp_unique.
Qed.

Lemma unique_ids_preserved_when_fresh_witness :
  NoDup (ids demoForest) /\
  NoDup (ids (fst (runOps demoDraws [OpInsertChild "a"; OpInsertSibling "b"]
                     demoForest O))).
Proof.
  assert (H : NoDup (ids demoForest)) by (vm_compute; nodup_list).
  split; [exact H|].
  apply (unique_ids_preserved_when_fresh demoDraws
           [OpInsertChild "a"; OpInsertSibling "b"] demoForest O H eq_refl).
  fresh_draws.
Defined.

(** C2: every sequence of rename, insertChild, insertSibling, deleteSubtree
    and appendTopLevel keeps the level invariant: top-level nodes have level
    1 and every other node has the level of its parent plus 1. *)
Theorem levels_preserved rnd ops : forall f n,
  levelsOk f = true -> levelsOk (fst (runOps rnd ops f n)) = true.
Proof.
  induction ops as [|op rest IH]; intros f n H; [exact H|].
  rewrite runOps_cons. apply IH. now apply applyOp_levels.
Qed.

Lemma levels_preserved_witness :
  levelsOk demoForest = true /\
  levelsOk (fst (runOps demoDraws
                   [OpInsertChild "c"; OpRename "a" "Airport"; OpInsertSibling "d";
                    OpDeleteSubtree "b"; OpAppendTopLevel]
                   demoForest O)) = true.
Proof.
  split; [reflexivity|].
  apply (levels_preserved demoDraws _ demoForest O). reflexivity.
Defined.

(** C3: with an id that occurs nowhere in the forest, rename (and any other
    update), insertChild, insertSibling and deleteSubtree return the input
    forest; the two insertions draw nothing from the random source. *)
Theorem absent_id_is_noop rnd a f :
  ~ In a (ids f) ->
  (forall t, rename f a t = f) /\
  (forall u, handleUpdateNode f a u = f) /\
  (forall n, handleAddChild rnd f a n = (f, n)) /\
  (forall n, handleAddSibling rnd f a n = (f, n)) /\
  handleDeleteNode f a = f.
Proof.
  intros H. repeat split; intros.
  - apply updateRecursive_absent, H.
  - apply updateRecursive_absent, H.
  - apply addRecursive_absent, H.
  - apply addSiblingRecursive_absent, H.
  - apply deleteRecursive_absent, H.
Qed.

Lemma absent_id_is_noop_witness :
  ~ In "z" (ids demoForest) /\
  rename demoForest "z" "Zoo" = demoForest /\
  handleAddChild demoDraws demoForest "z" O = (demoForest, O) /\
  handleAddSibling demoDraws demoForest "z" O = (demoForest, O) /\
  handleDeleteNode demoForest "z" = demoForest.
Proof.
  assert (H : ~ In "z" (ids demoForest)) by (vm_compute; notin_list).
  destruct (absent_id_is_noop demoDraws "z" demoForest H)
    as (Hr & _ & Hc & Hs & Hd).
  split; [exact H|]. split; [apply Hr|]. split; [apply Hc|].
  split; [apply Hs | exact Hd].
Defined.

Lemma idsNode_labels x : idsNode x = map labelId (labelsNode x).
Proof.
  pose proof (ids_labels [x]) as H. unfold ids, labels in H. simpl in H.
  now rewrite !app_nil_r in H.
Qed.

Lemma Removed_labels x f f' :
  EditAt (Removed x) f f' ->
  exists l1 l2, labels f = l1 ++ labelsNode x ++ l2 /\ labels f' = l1 ++ l2.
Proof.
  intros H. apply EditAt_labels in H.
  destruct H as (l1 & l2 & y & ys & [-> ->] & E & E').
  now exists l1, l2.
Qed.

(** C4: in a forest with unique ids that contains a node [x] with the id,
    deleteSubtree removes [x], with its subtree, from the sibling list that
    holds it and changes nothing else: no id of [x] or of a descendant of [x]
    occurs afterwards, and every other node is still there. *)
Theorem delete_removes_subtree a f x :
  NoDup (ids f) -> findNode a f = Some x ->
  id x = a /\
  EditAt (Removed x) f (handleDeleteNode f a) /\
  (forall j, In j (idsNode x) -> ~ In j (ids (handleDeleteNode f a))) /\
  (forall e, In e (labels f) -> ~ In (labelId e) (idsNode x) ->
             In e (labels (handleDeleteNode f a))).
Proof.
  intros Hnd Hx. split; [apply (findNode_Some _ _ _ Hx)|].
  pose proof (deleteRecursive_present a f Hnd x Hx) as He.
  split; [exact He|]. unfold handleDeleteNode.
  destruct (Removed_labels _ _ _ He) as (l1 & l2 & E & E').
  rewrite ids_labels, E, !map_app, <- idsNode_labels in Hnd.
  rewrite (ids_labels (deleteRecursive a f)), E', E, map_app.
  apply NoDup_app_inv in Hnd. destruct Hnd as (_ & Hnd & H1).
  apply NoDup_app_inv in Hnd. destruct Hnd as (_ & _ & H2).
  split.
  - intros j Hj Hin. apply in_app_or in Hin. destruct Hin as [Hin|Hin].
    + apply (H1 j Hin). apply in_or_app. now left.
    + exact (H2 j Hj Hin).
  - intros e He' Hne. rewrite !in_app_iff in He'. rewrite in_app_iff.
    destruct He' as [?|[Hin|?]]; [now left| |now right].
    exfalso. apply Hne. rewrite idsNode_labels. now apply in_map.
Qed.

Lemma delete_removes_subtree_witness :
  NoDup (ids demoForest) /\
  findNode "a" demoForest =
    Some (mkNode "a" "Arrival" 1
            [mkNode "c" "Customs" 2 []; mkNode "d" "Transit" 2 []]) /\
  ~ In "d" (ids (handleDeleteNode demoForest "a")) /\
  In ("b", "Budget", 1) (labels (handleDeleteNode demoForest "a")).
Proof.
  assert (H : NoDup (ids demoForest)) by (vm_compute; nodup_list).
  destruct (delete_removes_subtree "a" demoForest _ H eq_refl)
    as (_ & _ & Hgone & Hkept).
  split; [exact H|]. split; [reflexivity|]. split.
  - apply Hgone. vm_compute. right. right. now left.
  - apply Hkept; [vm_compute; right; right; right; now left|].
    vm_compute. notin_list.
Defined.

(** C5: in a forest with unique ids that contains a node [x] with the anchor
    id, insertSibling draws one id and puts one new node, with that id, the
    default title, the level of [x] and no children, right after [x] in the
    sibling list that holds [x], at any depth; nothing else changes.  On the
    forest of two top-level nodes "a" and "b" of level 1, the new node is at
    index 1 of a list of three and has level 1. *)
Theorem insert_sibling_after_anchor rnd a f x n :
  NoDup (ids f) -> findNode a f = Some x ->
  id x = a /\
  snd (handleAddSibling rnd f a n) = S n /\
  EditAt (SiblingAdded x (rnd n)) f (fst (handleAddSibling rnd f a n)) /\
  (forall ta tb,
     fst (handleAddSibling rnd [mkNode "a" ta 1 []; mkNode "b" tb 1 []] "a" n)
     = [mkNode "a" ta 1 []; mkNode (rnd n) newTitle 1 []; mkNode "b" tb 1 []]).
Proof.
  intros Hnd Hx. split; [apply (findNode_Some _ _ _ Hx)|].
  destruct (addSiblingRecursive_present rnd a f Hnd x Hx n) as [Hs He].
  repeat split; try assumption.
Qed.

Lemma insert_sibling_after_anchor_witness :
  NoDup (ids demoForest) /\
  findNode "c" demoForest = Some (mkNode "c" "Customs" 2 []) /\
  EditAt (SiblingAdded (mkNode "c" "Customs" 2 []) "i") demoForest
    [mkNode "a" "Arrival" 1
       [mkNode "c" "Customs" 2 []; mkNode "i" newTitle 2 [];
        mkNode "d" "Transit" 2 []];
     mkNode "b" "Budget" 1 []].
Proof.
  assert (H : NoDup (ids demoForest)) by (vm_compute; nodup_list).
  split; [exact H|]. split; [reflexivity|].
  exact (proj1 (proj2 (proj2
    (insert_sibling_after_anchor demoDraws "c" demoForest _ O H eq_refl)))).
Defined.

(** ** The child level as a JS number *)

Lemma jsPlusOne_safe l : safeLevel l = true -> jsPlusOne l = l + 1.
Proof.
  unfold safeLevel, jsPlusOne, roundToDouble, twoTo53. intros H.
  apply andb_true_iff in H. destruct H as [H1 H2].
  apply Z.leb_le in H1. apply Z.ltb_lt in H2.
  destruct (Z.leb_spec (Z.abs (l + 1)) 9007199254740992); [reflexivity | lia].
Qed.

Example jsPlusOne_values :
  jsPlusOne 2 = 3 /\ jsPlusOne (-1) = 0 /\
  jsPlusOne 9007199254740991 = 9007199254740992 /\
  jsPlusOne 9007199254740992 = 9007199254740992 /\
  jsPlusOne 9007199254740994 = 9007199254740996 /\
  jsPlusOne (-9007199254740992) = -9007199254740991 /\
  jsPlusOne (-9007199254740994) = -9007199254740992 /\
  jsPlusOne 18014398509481984 = 18014398509481984.
Proof. vm_compute. repeat split. Qed.

Lemma addNodeJs_eq rnd a i t l cs n :
  addNodeJs rnd a (mkNode i t l cs) n =
  if String.eqb i a
  then (mkNode i t l (cs ++ [mkNode (rnd n) newTitle (jsPlusOne l) []]), S n)
  else (mkNode i t l (fst (addRecursiveJs rnd a cs n)), snd (addRecursiveJs rnd a cs n)).
Proof.
  simpl. destruct (String.eqb i a); [reflexivity|].
  destruct cs as [|c cs]; [reflexivity|].
  unfold addRecursiveJs, bind, ret.
  now destruct (mapM (addNodeJs rnd a) (c :: cs) n).
Qed.

Lemma addRecursiveJs_cons rnd a x r n :
  addRecursiveJs rnd a (x :: r) n =
  (fst (addNodeJs rnd a x n) :: fst (addRecursiveJs rnd a r (snd (addNodeJs rnd a x n))),
   snd (addRecursiveJs rnd a r (snd (addNodeJs rnd a x n)))).
Proof. apply mapM_cons. Qed.

Lemma addRecursiveJs_absent rnd a f :
  ~ In a (ids f) -> forall n, addRecursiveJs rnd a f n = (f, n).
Proof.
  induction f as [|i t l cs r IHcs IHr] using forest_ind; [reflexivity|].
  rewrite ids_cons. intros H n. simpl in H. rewrite in_app_iff in H.
  rewrite addRecursiveJs_cons, addNodeJs_eq.
  destruct (String.eqb_spec i a) as [->|_]; [tauto|].
  rewrite IHcs by tauto. simpl. rewrite IHr by tauto. reflexivity.
Qed.

Lemma addRecursiveJs_present rnd a f :
  NoDup (ids f) -> forall x, findNode a f = Some x -> forall n,
  snd (addRecursiveJs rnd a f n) = S n /\
  EditAt (ChildAddedJs x (rnd n)) f (fst (addRecursiveJs rnd a f n)).
Proof.
  induction f as [|i t l cs r IHcs IHr] using forest_ind; [discriminate|].
  intros Hnd x. apply NoDup_ids_cons in Hnd.
  destruct Hnd as (Hics & Hir & Hcs & Hr & Hdisj).
  rewrite findNode_cons. intros Hx n. rewrite addRecursiveJs_cons, addNodeJs_eq.
  destruct (String.eqb_spec i a) as [->|Hne].
  - injection Hx as <-. simpl fst. simpl snd.
    rewrite (addRecursiveJs_absent rnd a r Hir). simpl. split; [reflexivity|].
    apply (EditAt_head _ _ [_]). split; reflexivity.
  - destruct (findNode a cs) as [y|] eqn:E.
    + injection Hx as <-. pose proof (proj2 (findNode_Some _ _ _ E)) as Hin.
      destruct (IHcs Hcs _ eq_refl n) as [Hs He]. simpl fst. simpl snd.
      rewrite (addRecursiveJs_absent rnd a r (Hdisj _ Hin)). simpl.
      split; [exact Hs|]. now apply EditAt_child.
    + apply findNode_None in E.
      rewrite (addRecursiveJs_absent rnd a cs E). simpl fst. simpl snd.
      destruct (IHr Hr _ Hx n) as [Hs He]. split; [exact Hs|].
      now apply EditAt_cons.
Qed.

Lemma addRecursiveJs_twice rnd a f :
  NoDup (ids f) -> forall x, findNode a f = Some x -> forall n,
  snd (addRecursiveJs rnd a (fst (addRecursiveJs rnd a f n)) (S n)) = S (S n) /\
  EditAt (fun y ys =>
            y = x /\
            ys = [mkNode (id x) (title x) (level x)
                    (children x ++ [mkNode (rnd n) newTitle (jsPlusOne (level x)) [];
                                    mkNode (rnd (S n)) newTitle (jsPlusOne (level x)) []])])
         f (fst (addRecursiveJs rnd a (fst (addRecursiveJs rnd a f n)) (S n))).
Proof.
  induction f as [|i t l cs r IHcs IHr] using forest_ind; [discriminate|].
  intros Hnd x. apply NoDup_ids_cons in Hnd.
  destruct Hnd as (Hics & Hir & Hcs & Hr & Hdisj).
  rewrite findNode_cons. intros Hx n. rewrite addRecursiveJs_cons, addNodeJs_eq.
  destruct (String.eqb i a) eqn:Ei.
  - apply String.eqb_eq in Ei. subst i. injection Hx as <-. cbn [fst snd].
    rewrite (addRecursiveJs_absent rnd a r Hir). cbn [fst snd].
    rewrite addRecursiveJs_cons, addNodeJs_eq, String.eqb_refl. cbn [fst snd].
    rewrite (addRecursiveJs_absent rnd a r Hir). simpl. split; [reflexivity|].
    rewrite <- app_assoc. simpl.
    apply (EditAt_head _ _ [_]). split; reflexivity.
  - destruct (findNode a cs) as [y|] eqn:E.
    + injection Hx as <-. pose proof (proj2 (findNode_Some _ _ _ E)) as Hin.
      destruct (addRecursiveJs_present rnd a cs Hcs _ E n) as [Hs1 _].
      destruct (IHcs Hcs _ eq_refl n) as [Hs He]. cbn [fst snd].
      rewrite Hs1, (addRecursiveJs_absent rnd a r (Hdisj _ Hin)). cbn [fst snd].
      rewrite addRecursiveJs_cons, addNodeJs_eq, Ei. cbn [fst snd].
      rewrite Hs, (addRecursiveJs_absent rnd a r (Hdisj _ Hin)). simpl.
      split; [reflexivity|]. now apply EditAt_child.
    + apply findNode_None in E.
      rewrite (addRecursiveJs_absent rnd a cs E). cbn [fst snd].
      destruct (addRecursiveJs_present rnd a r Hr _ Hx n) as [Hs1 _].
      destruct (IHr Hr _ Hx n) as [Hs He].
      rewrite addRecursiveJs_cons, addNodeJs_eq, Ei.
      rewrite (addRecursiveJs_absent rnd a cs E). cbn [fst snd].
      split; [exact Hs|]. now apply EditAt_cons.
Qed.

(** Where every level is a safe integer the two computations of the child
    level give the same forest. *)
Lemma handleAddChildJs_agrees rnd a f :
  (forall e, In e (labels f) -> safeLevel (snd e) = true) ->
  forall n, handleAddChildJs rnd f a n = handleAddChild rnd f a n.
Proof.
  unfold handleAddChildJs, handleAddChild.
  induction f as [|i t l cs r IHcs IHr] using forest_ind; [reflexivity|].
  intros H n. rewrite labels_cons in H.
  assert (Hl : safeLevel l = true) by (apply (H (i, t, l)); now left).
  assert (Hcs : forall e, In e (labels cs) -> safeLevel (snd e) = true)
    by (intros e He; apply H; right; apply in_or_app; now left).
  assert (Hr : forall e, In e (labels r) -> safeLevel (snd e) = true)
    by (intros e He; apply H; right; apply in_or_app; now right).
  rewrite addRecursiveJs_cons, addRecursive_cons, addNodeJs_eq, addNode_eq.
  rewrite (jsPlusOne_safe l Hl), (IHcs Hcs).
  destruct (String.eqb i a); cbn [fst snd]; now rewrite (IHr Hr).
Qed.

Lemma not_EditAt_nil R f' : ~ EditAt R [] f'.
Proof.
  intros H. remember [] as f eqn:Ef.
  destruct H as [l1 x xs l2 _ | l1 i t l cs cs' l2 _];
    destruct l1; discriminate Ef.
Qed.

(** C6 (as stated): insertChild gives the new child the level of its parent
    plus 1, whatever that level is.  This fails where the JS number sum is
    rounded: under a parent of level 2^53 the new child has level 2^53, the
    level of its parent. *)
Lemma child_level_counterexample :
  NoDup (ids deepForest) /\
  findNode "p" deepForest = Some (mkNode "p" "Plan" 9007199254740992 []) /\
  fst (handleAddChildJs sameDraws deepForest "p" O)
  = [mkNode "p" "Plan" 9007199254740992
       [mkNode "i" newTitle 9007199254740992 []]] /\
  ~ EditAt (ChildAdded (mkNode "p" "Plan" 9007199254740992 []) "i")
      deepForest (fst (handleAddChildJs sameDraws deepForest "p" O)).
Proof.
  split; [vm_compute; nodup_list|]. split; [reflexivity|].
  split; [vm_compute; reflexivity|].
  replace (fst (handleAddChildJs sameDraws deepForest "p" O))
    with [mkNode "p" "Plan" 9007199254740992
            [mkNode "i" newTitle 9007199254740992 []]]
    by (vm_compute; reflexivity).
  unfold deepForest, twoTo53.
  remember [mkNode "p" "Plan" 9007199254740992 []] as f eqn:Ef.
  remember [mkNode "p" "Plan" 9007199254740992
              [mkNode "i" newTitle 9007199254740992 []]] as f' eqn:Ef'.
  intros H.
  destruct H as [l1 x xs l2 [Hx Hxs] | l1 i t l cs cs' l2 Hcs].
  - destruct l1 as [|y l1].
    + injection Ef as E1 E2. subst x xs l2. simpl in Ef'. discriminate Ef'.
    + injection Ef as _ Ef. destruct l1; discriminate Ef.
  - destruct l1 as [|y l1].
    + injection Ef as E1 E2 E3 E4 E5. subst cs. exact (not_EditAt_nil _ _ Hcs).
    + injection Ef as _ Ef. destruct l1; discriminate Ef.
Qed.

(** C6 (amended): in a forest with unique ids that contains a node [x] with
    the parent id, insertChild draws one id and appends one new node, with
    that id, the default title and no children, after the children [x]
    already has; nothing else changes.  The level of the new node is the JS
    number sum of the level of [x] and 1: it is the level of [x] plus 1
    whenever the level of [x] is an integer from -2^53 up to, not including,
    2^53.  A parent of level 2 without children gets exactly one child, of
    level 3. *)
Theorem insert_child_appends rnd a f x n :
  NoDup (ids f) -> findNode a f = Some x ->
  id x = a /\
  snd (handleAddChildJs rnd f a n) = S n /\
  EditAt (ChildAddedJs x (rnd n)) f (fst (handleAddChildJs rnd f a n)) /\
  (safeLevel (level x) = true ->
   EditAt (ChildAdded x (rnd n)) f (fst (handleAddChildJs rnd f a n))) /\
  (level x = 2 -> children x = [] ->
   EditAt (fun y ys =>
             y = x /\
             ys = [mkNode (id x) (title x) 2 [mkNode (rnd n) newTitle 3 []]])
          f (fst (handleAddChildJs rnd f a n))).
Proof.
  intros Hnd Hx. split; [apply (findNode_Some _ _ _ Hx)|].
  destruct (addRecursiveJs_present rnd a f Hnd x Hx n) as [Hs He].
  split; [exact Hs|]. split; [exact He|]. split.
  - intros Hl. unfold ChildAddedJs in He. rewrite (jsPlusOne_safe _ Hl) in He.
    exact He.
  - intros Hl Hc. unfold ChildAddedJs in He. rewrite Hl, Hc in He. exact He.
Qed.

Lemma insert_child_appends_witness :
  NoDup (ids demoForest) /\
  findNode "c" demoForest = Some (mkNode "c" "Customs" 2 []) /\
  safeLevel 2 = true /\
  snd (handleAddChildJs demoDraws demoForest "c" O) = 1%nat /\
  EditAt (ChildAdded (mkNode "c" "Customs" 2 []) "i") demoForest
         [mkNode "a" "Arrival" 1
            [mkNode "c" "Customs" 2 [mkNode "i" newTitle 3 []];
             mkNode "d" "Transit" 2 []];
          mkNode "b" "Budget" 1 []] /\
  EditAt (fun y ys =>
            y = mkNode "c" "Customs" 2 [] /\
            ys = [mkNode "c" "Customs" 2 [mkNode "i" newTitle 3 []]])
         demoForest
         [mkNode "a" "Arrival" 1
            [mkNode "c" "Customs" 2 [mkNode "i" newTitle 3 []];
             mkNode "d" "Transit" 2 []];
          mkNode "b" "Budget" 1 []].
Proof.
  assert (H : NoDup (ids demoForest)) by (vm_compute; nodup_list).
  destruct (insert_child_appends demoDraws "c" demoForest _ O H eq_refl)
    as (_ & Hs & _ & Hsafe & Hex).
  split; [exact H|]. split; [reflexivity|]. split; [reflexivity|].
  split; [exact Hs|]. split; [exact (Hsafe eq_refl) | exact (Hex eq_refl eq_refl)].
Defined.

(** C7: in a forest with unique ids that contains a node [x] with the id,
    rename replaces the title of [x] and keeps its id, level and children;
    every other node and the order of every sibling list are unchanged. *)
Theorem rename_changes_one_title a t' f x :
  NoDup (ids f) -> findNode a f = Some x ->
  id x = a /\
  EditAt (Renamed x t') f (rename f a t') /\
  ids (rename f a t') = ids f /\
  size (rename f a t') = size f.
Proof.
  intros Hnd Hx. split; [apply (findNode_Some _ _ _ Hx)|].
  pose proof (updateRecursive_present a t' f Hnd x Hx) as He.
  split; [exact He|]. unfold rename, handleUpdateNode.
  apply EditAt_labels in He.
  destruct He as (l1 & l2 & y & ys & [-> ->] & E & E').
  rewrite !ids_labels, !size_labels, E, E'.
  destruct x as [i t l cs]. cbn [id level children].
  change (labels [mkNode i t' l cs]) with ((i, t', l) :: labels cs ++ []).
  change (labelsNode (mkNode i t l cs)) with ((i, t, l) :: labels cs).
  rewrite app_nil_r, !map_app, !List.length_app. simpl. tauto.
Qed.

Lemma rename_changes_one_title_witness :
  NoDup (ids demoForest) /\
  findNode "d" demoForest = Some (mkNode "d" "Transit" 2 []) /\
  EditAt (Renamed (mkNode "d" "Transit" 2 []) "Trains") demoForest
    [mkNode "a" "Arrival" 1
       [mkNode "c" "Customs" 2 []; mkNode "d" "Trains" 2 []];
     mkNode "b" "Budget" 1 []].
Proof.
  assert (H : NoDup (ids demoForest)) by (vm_compute; nodup_list).
  split; [exact H|]. split; [reflexivity|].
  exact (proj1 (proj2
    (rename_changes_one_title "d" "Trains" demoForest _ H eq_refl))).
Defined.

(** C8: deleting the same id twice in succession gives the forest that
    deleting it once gives, for every forest and every id. *)
Theorem delete_twice_is_delete_once a f :
  handleDeleteNode (handleDeleteNode f a) a = handleDeleteNode f a.
Proof. apply deleteRecursive_idem. Qed.





Section DrawsOfResult.
Variables rnd1 rnd2 : nat -> string.

Local Abbreviation Reveals := (RevealsOn rnd1 rnd2).




End DrawsOfResult.



(** C10: appendTopLevel always puts one new node at the end of the top-level
    list.  In a forest with unique ids that contains the target id,
    insertChild and insertSibling each add exactly one node: the nodes of the
    result, in document order, are the nodes of the input in their order with
    the one new node put in somewhere, so no node is lost or repeated. *)
Theorem insertion_adds_one_node rnd f n :
  (fst (appendTopLevel rnd f n) = f ++ [mkNode (rnd n) newTopTitle 1 []] /\
   size (fst (appendTopLevel rnd f n)) = (size f + 1)%nat /\
   Add (rnd n, newTopTitle, 1) (labels f) (labels (fst (appendTopLevel rnd f n)))) /\
  (forall a, NoDup (ids f) -> In a (ids f) ->
     (size (fst (handleAddChild rnd f a n)) = (size f + 1)%nat /\
      exists lvl, Add (rnd n, newTitle, lvl) (labels f)
                      (labels (fst (handleAddChild rnd f a n)))) /\
     (size (fst (handleAddSibling rnd f a n)) = (size f + 1)%nat /\
      exists lvl, Add (rnd n, newTitle, lvl) (labels f)
                      (labels (fst (handleAddSibling rnd f a n))))).
Proof.
  split.
  - pose proof (appendTopLevel_labels rnd f n) as H.
    split; [reflexivity|]. split; [exact (Add_labels_size _ _ _ H) | exact H].
  - intros a Hnd Hin. destruct (findNode a f) as [x|] eqn:E.
    2:{ apply findNode_None in E. contradiction. }
    destruct (addRecursive_present rnd a f Hnd x E n) as [_ Hc].
    destruct (addSiblingRecursive_present rnd a f Hnd x E n) as [_ Hs].
    apply ChildAdded_labels in Hc. apply SiblingAdded_labels in Hs.
    split; (split; [eapply Add_labels_size; eassumption | eexists; eassumption]).
Qed.

Lemma insertion_adds_one_node_witness :
  NoDup (ids demoForest) /\ In "c" (ids demoForest) /\
  size demoForest = 4%nat /\
  size (fst (handleAddChild demoDraws demoForest "c" O)) = (size demoForest + 1)%nat /\
  size (fst (handleAddSibling demoDraws demoForest "c" O)) = (size demoForest + 1)%nat.
Proof.
  assert (H : NoDup (ids demoForest)) by (vm_compute; nodup_list).
  assert (Hin : In "c" (ids demoForest)) by (vm_compute; right; now left).
  destruct (proj2 (insertion_adds_one_node demoDraws demoForest O) "c" H Hin)
    as [[Hc _] [Hs _]].
  split; [exact H|]. split; [exact Hin|]. split; [reflexivity|].
  split; [exact Hc | exact Hs].
Defined.

(** * Further properties of the editor *)

(** ** Renaming *)

Lemma eraseTitles_cons i t l cs r :
  eraseTitles (mkNode i t l cs :: r) =
  mkNode i "" l (eraseTitles cs) :: eraseTitles r.
Proof. reflexivity. Qed.

Lemma rename_cons a t' i t l cs r :
  rename (mkNode i t l cs :: r) a t' =
  (if String.eqb i a then mkNode i t' l cs else mkNode i t l (rename cs a t'))
    :: rename r a t'.
Proof.
  unfold rename, handleUpdateNode.
  rewrite updateRecursive_cons, updateNode_eq.
  now destruct (String.eqb i a).
Qed.

(** rename changes titles only: on every forest, with or without the id
    and with or without duplicate ids, the ids, the levels, the nesting and
    the order of the result are those of the input. *)
Theorem rename_changes_titles_only a t' f :
  eraseTitles (rename f a t') = eraseTitles f.
Proof.
  induction f as [|i t l cs r IHcs IHr] using forest_ind; [reflexivity|].
  rewrite rename_cons. destruct (String.eqb i a);
    rewrite !eraseTitles_cons, ?IHcs, IHr; reflexivity.
Qed.

(** Renaming the same id twice keeps the second title only: the first
    rename leaves no trace, on every forest. *)
Theorem rename_last_wins a t1 t2 f :
  rename (rename f a t1) a t2 = rename f a t2.
Proof.
  induction f as [|i t l cs r IHcs IHr] using forest_ind; [reflexivity|].
  rewrite !rename_cons. destruct (String.eqb i a) eqn:E;
    rewrite rename_cons, E, ?IHcs, IHr; reflexivity.
Qed.

(** Renames of two different ids commute, on every forest. *)
Theorem rename_commutes a b ta tb f :
  a <> b -> rename (rename f a ta) b tb = rename (rename f b tb) a ta.
Proof.
  intros Hab.
  induction f as [|i t l cs r IHcs IHr] using forest_ind; [reflexivity|].
  rewrite !rename_cons.
  destruct (String.eqb i a) eqn:Ea, (String.eqb i b) eqn:Eb;
    rewrite !rename_cons, ?Ea, ?Eb, ?IHcs, ?IHr; try reflexivity.
  apply String.eqb_eq in Ea, Eb. congruence.
Qed.

Lemma rename_commutes_witness :
  "c" <> "b" /\
  rename (rename demoForest "c" "Control") "b" "Bank"
  = rename (rename demoForest "b" "Bank") "c" "Control".
Proof.
  assert (H : "c" <> "b") by discriminate.
  split; [exact H|]. exact (rename_commutes "c" "b" "Control" "Bank" demoForest H).
Defined.

(** An update without fields changes nothing, whether or not the id occurs. *)
Theorem update_without_fields_is_identity a f :
  handleUpdateNode f a (mkUpdates None None None None) = f.
Proof.
  unfold handleUpdateNode.
  induction f as [|i t l cs r IHcs IHr] using forest_ind; [reflexivity|].
  rewrite updateRecursive_cons, updateNode_eq, IHcs, IHr.
  now destruct (String.eqb i a).
Qed.

(** ** Deleting *)

Lemma handleDeleteNode_cons a i t l cs r :
  handleDeleteNode (mkNode i t l cs :: r) a =
  if String.eqb i a then handleDeleteNode r a
  else mkNode i t l (handleDeleteNode cs a) :: handleDeleteNode r a.
Proof.
  unfold handleDeleteNode. rewrite deleteRecursive_cons. simpl id.
  destruct (String.eqb i a); [reflexivity|]. now rewrite deleteNode_eq.
Qed.

Lemma size_app f g : size (f ++ g) = (size f + size g)%nat.
Proof. rewrite !size_labels, labels_app. apply List.length_app. Qed.

Lemma delete_removes_id a f : ~ In a (ids (handleDeleteNode f a)).
Proof.
  induction f as [|i t l cs r IHcs IHr] using forest_ind; [intros []|].
  rewrite handleDeleteNode_cons.
  destruct (String.eqb_spec i a) as [_|Hne]; [exact IHr|].
  rewrite ids_cons. simpl. rewrite in_app_iff. tauto.
Qed.

(** After deleteSubtree the id occurs nowhere, on every forest: every node
    with the id is removed, also when several nodes have it. *)
Theorem delete_leaves_no_occurrence a f :
  ~ In a (ids (handleDeleteNode f a)).
Proof. apply delete_removes_id. Qed.

(** deleteSubtree invents nothing: every id of the result is an id of the
    input. *)
Lemma delete_ids_incl a f : incl (ids (handleDeleteNode f a)) (ids f).
Proof.
  induction f as [|i t l cs r IHcs IHr] using forest_ind; [intros z []|].
  rewrite handleDeleteNode_cons, ids_cons. intros z Hz.
  destruct (String.eqb i a).
  - right. apply in_or_app. right. now apply IHr.
  - rewrite ids_cons in Hz. simpl in Hz. rewrite in_app_iff in Hz.
    simpl. rewrite in_app_iff.
    destruct Hz as [?|[?|?]]; [now left | right; left; now apply IHcs
                               | right; right; now apply IHr].
Qed.

Lemma delete_keeps_unique a f :
  NoDup (ids f) -> NoDup (ids (handleDeleteNode f a)).
Proof.
  induction f as [|i t l cs r IHcs IHr] using forest_ind; [intros; constructor|].
  intros Hnd. apply NoDup_ids_cons in Hnd.
  destruct Hnd as (Hics & Hir & Hcs & Hr & Hdisj).
  rewrite handleDeleteNode_cons. destruct (String.eqb i a); [now apply IHr|].
  rewrite ids_cons. apply NoDup_cons.
  - rewrite in_app_iff. intros [H|H]; apply delete_ids_incl in H; tauto.
  - apply NoDup_app; [now apply IHcs | now apply IHr|].
    intros z Hz Hz'. apply delete_ids_incl in Hz, Hz'. exact (Hdisj z Hz Hz').
Qed.

(** The size after deleteSubtree is at most the size before, and smaller
    when the id occurs. *)
Theorem delete_shrinks a f :
  (size (handleDeleteNode f a) <= size f)%nat /\
  (In a (ids f) -> (size (handleDeleteNode f a) < size f)%nat).
Proof.
  induction f as [|i t l cs r [IHcs IHcs'] [IHr IHr']] using forest_ind.
  - split; [apply Nat.le_refl | intros []].
  - rewrite handleDeleteNode_cons, size_cons, ids_cons.
    destruct (String.eqb_spec i a) as [->|Hne].
    + split; [lia | intros _; lia].
    + rewrite size_cons. split; [lia|].
      simpl. rewrite in_app_iff. intros [?|[H|H]]; [congruence| |].
      * specialize (IHcs' H). lia.
      * specialize (IHr' H). lia.
Qed.

Lemma delete_shrinks_witness :
  In "a" (ids demoForest) /\
  (size (handleDeleteNode demoForest "a") < size demoForest)%nat.
Proof.
  assert (H : In "a" (ids demoForest)) by (vm_compute; now left).
  split; [exact H|]. exact (proj2 (delete_shrinks "a" demoForest) H).
Defined.

(** Deletions commute, on every forest. *)
Theorem delete_commutes a b f :
  handleDeleteNode (handleDeleteNode f a) b
  = handleDeleteNode (handleDeleteNode f b) a.
Proof.
  induction f as [|i t l cs r IHcs IHr] using forest_ind; [reflexivity|].
  rewrite !handleDeleteNode_cons.
  destruct (String.eqb i a) eqn:Ea, (String.eqb i b) eqn:Eb;
    rewrite ?handleDeleteNode_cons, ?Ea, ?Eb, ?IHcs, ?IHr; reflexivity.
Qed.

(** Once an id is deleted, rename, insertChild, insertSibling and
    deleteSubtree with that id leave the forest as it is and draw nothing,
    on every forest: a second click on a deleted node does nothing. *)
Theorem edits_of_deleted_id_do_nothing rnd a f :
  let g := handleDeleteNode f a in
  (forall t, rename g a t = g) /\
  (forall n, handleAddChild rnd g a n = (g, n)) /\
  (forall n, handleAddSibling rnd g a n = (g, n)) /\
  handleDeleteNode g a = g.
Proof.
  intros g. pose proof (delete_removes_id a f) as H. fold g in H.
  repeat split; intros.
  - apply updateRecursive_absent, H.
  - apply addRecursive_absent, H.
  - apply addSiblingRecursive_absent, H.
  - apply deleteRecursive_absent, H.
Qed.

(** ** Unique ids under every operation *)

Lemma rename_ids a t' f : ids (rename f a t') = ids f.
Proof.
  induction f as [|i t l cs r IHcs IHr] using forest_ind; [reflexivity|].
  rewrite rename_cons. destruct (String.eqb i a);
    rewrite !ids_cons, ?IHcs, IHr; reflexivity.
Qed.

Lemma applyOp_unique_any rnd op f n :
  NoDup (ids f) ->
  (forall s, In s (drawn rnd op f n) -> ~ In s (ids f)) ->
  NoDup (ids (fst (applyOp rnd op f n))).
Proof.
  intros Hnd Hfresh. destruct (isInsertion op) eqn:E.
  - now apply applyOp_unique.
  - destruct op; try discriminate; simpl.
    + now rewrite rename_ids.
    + now apply delete_keeps_unique.
Qed.

(** Along every run of the five operations from a forest with unique ids,
    the ids stay unique as long as every id drawn is absent from the forest
    it is inserted in; rename and deleteSubtree never break uniqueness. *)
Theorem unique_ids_along_any_run rnd ops : forall f n,
  NoDup (ids f) -> drawsFresh rnd ops f n ->
  NoDup (ids (fst (runOps rnd ops f n))).
Proof.
  induction ops as [|op rest IH]; intros f n Hnd Hfresh; [exact Hnd|].
  destruct Hfresh as [Hnow Hlater]. rewrite runOps_cons.
  apply IH; [|exact Hlater]. now apply applyOp_unique_any.
Qed.

Lemma unique_ids_along_any_run_witness :
  NoDup (ids demoForest) /\
  NoDup (ids (fst (runOps demoDraws
                     [OpInsertChild "c"; OpRename "i" "Queue";
                      OpDeleteSubtree "d"; OpAppendTopLevel]
                     demoForest O))).
Proof.
  assert (H : NoDup (ids demoForest)) by (vm_compute; nodup_list).
  split; [exact H|].
  apply (unique_ids_along_any_run demoDraws _ demoForest O H).
  fresh_draws.
Defined.

(** ** Every draw is one new node *)

Lemma addRecursive_growth rnd a f : forall n,
  (n <= snd (addRecursive rnd a f n))%nat /\
  size (fst (addRecursive rnd a f n))
  = (size f + (snd (addRecursive rnd a f n) - n))%nat.
Proof.
  induction f as [|i t l cs r IHcs IHr] using forest_ind; intros n.
  - simpl. rewrite Nat.sub_diag. split; [lia | reflexivity].
  - rewrite addRecursive_cons, addNode_eq. destruct (String.eqb i a).
    + simpl fst. simpl snd. destruct (IHr (S n)) as [Hle Hsz].
      rewrite !size_cons, size_app, Hsz.
      change (size [mkNode (rnd n) newTitle (l + 1) []]) with 1%nat.
      split; lia.
    + simpl fst. simpl snd. destruct (IHcs n) as [Hle1 Hsz1].
      destruct (IHr (snd (addRecursive rnd a cs n))) as [Hle2 Hsz2].
      rewrite !size_cons, Hsz1, Hsz2. split; lia.
Qed.

Lemma addSiblingRecursive_growth rnd a f : forall n,
  (n <= snd (addSiblingRecursive rnd a f n))%nat /\
  size (fst (addSiblingRecursive rnd a f n))
  = (size f + (snd (addSiblingRecursive rnd a f n) - n))%nat.
Proof.
  induction f as [|i t l cs r IHcs IHr] using forest_ind; intros n.
  - simpl. rewrite Nat.sub_diag. split; [lia | reflexivity].
  - destruct (findIndex a (mkNode i t l cs :: r)) as [k|] eqn:Ek.
    + destruct (findIndex_nth_error _ _ _ Ek) as (l1 & y & l2 & Hf & Hk & Hy & _).
      rewrite Hf in *. subst k.
      rewrite (addSiblingRecursive_found rnd a l1 y l2 n Ek). simpl fst. simpl snd.
      split; [lia|].
      change (l1 ++ y :: mkNode (rnd n) newTitle (level y) [] :: l2)
        with (l1 ++ [y] ++ [mkNode (rnd n) newTitle (level y) []] ++ l2).
      change (l1 ++ y :: l2) with (l1 ++ [y] ++ l2).
      rewrite !size_app.
      change (size [mkNode (rnd n) newTitle (level y) []]) with 1%nat. lia.
    + destruct (addSiblingRecursive_cons rnd _ _ _ n Ek) as [_ ->].
      rewrite addSiblingNode_eq. simpl fst. simpl snd.
      destruct (IHcs n) as [Hle1 Hsz1].
      destruct (IHr (snd (addSiblingRecursive rnd a cs n))) as [Hle2 Hsz2].
      rewrite !size_cons, Hsz1, Hsz2. split; lia.
Qed.

(** On every forest, also one with duplicate ids where several nodes match,
    insertChild, insertSibling and appendTopLevel add exactly as many nodes
    as they draw ids: each draw becomes one node and nothing is removed. *)
Theorem insertions_grow_by_their_draws rnd op f n :
  isInsertion op = true ->
  (n <= snd (applyOp rnd op f n))%nat /\
  size (fst (applyOp rnd op f n))
  = (size f + (snd (applyOp rnd op f n) - n))%nat.
Proof.
  destruct op; try discriminate; intros _.
  - apply addRecursive_growth.
  - apply addSiblingRecursive_growth.
  - change (applyOp rnd OpAppendTopLevel f n)
      with (f ++ [mkNode (rnd n) newTopTitle 1 []], S n).
    simpl fst. simpl snd. rewrite size_app.
    change (size [mkNode (rnd n) newTopTitle 1 []]) with 1%nat. split; lia.
Qed.

Lemma insertions_grow_by_their_draws_witness :
  size (fst (applyOp demoDraws (OpInsertChild "x")
               [mkNode "x" "One" 1 []; mkNode "x" "Two" 1 []] O)) = 4%nat.
Proof.
  exact (proj2 (insertions_grow_by_their_draws demoDraws (OpInsertChild "x")
                  [mkNode "x" "One" 1 []; mkNode "x" "Two" 1 []] O eq_refl)).
Defined.

(** ** Inserting, then deleting or finding the new node *)

Lemma handleDeleteNode_app a f g :
  handleDeleteNode (f ++ g) a = handleDeleteNode f a ++ handleDeleteNode g a.
Proof.
  unfold handleDeleteNode, deleteRecursive. now rewrite filter_app, map_app.
Qed.

Lemma handleDeleteNode_absent a f :
  ~ In a (ids f) -> handleDeleteNode f a = f.
Proof. apply deleteRecursive_absent. Qed.

Lemma ids_node x r : ids (x :: r) = idsNode x ++ ids r.
Proof. reflexivity. Qed.

(** Deleting an id the forest did not have undoes an edit whose new nodes
    are the only ones with that id. *)
Lemma EditAt_delete_back R s f f' :
  EditAt R f f' -> ~ In s (ids f) ->
  (forall y ys, R y ys -> ~ In s (idsNode y) -> handleDeleteNode ys s = [y]) ->
  handleDeleteNode f' s = f.
Proof.
  intros H. induction H as [l1 x xs l2 Hx | l1 i t l cs cs' l2 _ IH];
    intros Hs HR; rewrite ids_app, ids_node, !in_app_iff in Hs.
  - rewrite !handleDeleteNode_app, (HR _ _ Hx) by tauto.
    rewrite !handleDeleteNode_absent by tauto. reflexivity.
  - simpl in Hs.
    rewrite handleDeleteNode_app, handleDeleteNode_cons.
    destruct (String.eqb_spec i s) as [->|_]; [tauto|].
    rewrite IH by (rewrite ?in_app_iff; tauto).
    rewrite !handleDeleteNode_absent by tauto. reflexivity.
Qed.

Lemma ChildAdded_delete_back x s y ys :
  ChildAdded x s y ys -> ~ In s (idsNode y) -> handleDeleteNode ys s = [y].
Proof.
  intros [-> ->] Hs. destruct x as [i t l cs]. cbn [id title level children].
  simpl in Hs. rewrite handleDeleteNode_cons.
  destruct (String.eqb_spec i s) as [->|_]; [tauto|].
  rewrite handleDeleteNode_app, handleDeleteNode_absent by tauto.
  rewrite handleDeleteNode_cons, String.eqb_refl. simpl.
  now rewrite app_nil_r.
Qed.

Lemma SiblingAdded_delete_back x s y ys :
  SiblingAdded x s y ys -> ~ In s (idsNode y) -> handleDeleteNode ys s = [y].
Proof.
  intros [-> ->] Hs.
  change [x; mkNode s newTitle (level x) []]
    with ([x] ++ [mkNode s newTitle (level x) []]).
  rewrite handleDeleteNode_app, handleDeleteNode_absent.
  - rewrite handleDeleteNode_cons, String.eqb_refl. reflexivity.
  - rewrite ids_node. simpl. now rewrite app_nil_r.
Qed.

(** In a forest with unique ids, an insertion whose drawn id is not yet in
    the forest is undone by deleting that id: insertChild, insertSibling
    (with any target, present or not) and appendTopLevel followed by
    deleteSubtree of the drawn id give back the forest. *)
Theorem insert_then_delete_restores rnd a f n :
  NoDup (ids f) -> ~ In (rnd n) (ids f) ->
  handleDeleteNode (fst (handleAddChild rnd f a n)) (rnd n) = f /\
  handleDeleteNode (fst (handleAddSibling rnd f a n)) (rnd n) = f /\
  handleDeleteNode (fst (appendTopLevel rnd f n)) (rnd n) = f.
Proof.
  intros Hnd Hs. destruct (findNode a f) as [x|] eqn:E.
  - destruct (addRecursive_present rnd a f Hnd x E n) as [_ Hc].
    destruct (addSiblingRecursive_present rnd a f Hnd x E n) as [_ Hb].
    split; [|split].
    + apply (EditAt_delete_back _ _ _ _ Hc Hs). apply ChildAdded_delete_back.
    + apply (EditAt_delete_back _ _ _ _ Hb Hs). apply SiblingAdded_delete_back.
    + simpl. rewrite handleDeleteNode_app, handleDeleteNode_absent by assumption.
      rewrite handleDeleteNode_cons, String.eqb_refl. simpl. apply app_nil_r.
  - apply findNode_None in E. unfold handleAddChild, handleAddSibling.
    rewrite (addRecursive_absent rnd a f E), (addSiblingRecursive_absent rnd a f E).
    simpl. rewrite handleDeleteNode_app, !handleDeleteNode_absent by assumption.
    rewrite handleDeleteNode_cons, String.eqb_refl. simpl.
    now rewrite app_nil_r.
Qed.

Lemma insert_then_delete_restores_witness :
  NoDup (ids demoForest) /\ ~ In (demoDraws O) (ids demoForest) /\
  handleDeleteNode (fst (handleAddSibling demoDraws demoForest "c" O)) "i"
  = demoForest.
Proof.
  assert (H : NoDup (ids demoForest)) by (vm_compute; nodup_list).
  assert (Hs : ~ In (demoDraws O) (ids demoForest)) by (vm_compute; notin_list).
  split; [exact H|]. split; [exact Hs|].
  exact (proj1 (proj2 (insert_then_delete_restores demoDraws "c" demoForest O H Hs))).
Defined.

Lemma EditAt_findNode R s v f f' :
  EditAt R f f' -> ~ In s (ids f) ->
  (forall y ys, R y ys -> ~ In s (idsNode y) -> findNode s ys = Some v) ->
  findNode s f' = Some v.
Proof.
  intros H. induction H as [l1 x xs l2 Hx | l1 i t l cs cs' l2 _ IH];
    intros Hs HR; rewrite ids_app, ids_node, !in_app_iff in Hs.
  - rewrite findNode_app, (proj2 (findNode_None s l1)) by tauto.
    rewrite findNode_app, (HR _ _ Hx) by tauto. reflexivity.
  - simpl in Hs. rewrite findNode_app, (proj2 (findNode_None s l1)) by tauto.
    rewrite findNode_cons. destruct (String.eqb_spec i s) as [->|_]; [tauto|].
    rewrite IH by (rewrite ?in_app_iff; tauto). reflexivity.
Qed.

(** In a forest with unique ids that contains a node [x] with the target id,
    when the drawn id is not yet in the forest, looking that id up after
    insertChild or insertSibling finds the new node, with no children and
    the default title.  After insertSibling its level is the level of [x];
    after insertChild it is the JS number sum of the level of [x] and 1,
    which is the level of [x] plus 1 when that level is an integer from
    -2^53 up to, not including, 2^53. *)
Theorem inserted_node_is_found rnd a f x n :
  NoDup (ids f) -> findNode a f = Some x -> ~ In (rnd n) (ids f) ->
  findNode (rnd n) (fst (handleAddChildJs rnd f a n))
  = Some (mkNode (rnd n) newTitle (jsPlusOne (level x)) []) /\
  (safeLevel (level x) = true ->
   findNode (rnd n) (fst (handleAddChildJs rnd f a n))
   = Some (mkNode (rnd n) newTitle (level x + 1) [])) /\
  findNode (rnd n) (fst (handleAddSibling rnd f a n))
  = Some (mkNode (rnd n) newTitle (level x) []).
Proof.
  intros Hnd E Hs.
  destruct (addRecursiveJs_present rnd a f Hnd x E n) as [_ Hc].
  destruct (addSiblingRecursive_present rnd a f Hnd x E n) as [_ Hb].
  assert (Hchild : findNode (rnd n) (fst (handleAddChildJs rnd f a n))
                   = Some (mkNode (rnd n) newTitle (jsPlusOne (level x)) [])).
  { apply (EditAt_findNode _ _ _ _ _ Hc Hs). intros y ys [-> ->] Hy.
    destruct x as [i t l cs]. cbn [id title level children]. simpl in Hy.
    rewrite findNode_cons. destruct (String.eqb_spec i (rnd n)) as [->|_]; [tauto|].
    rewrite findNode_app, (proj2 (findNode_None (rnd n) cs)) by tauto.
    rewrite findNode_cons, String.eqb_refl. reflexivity. }
  split; [exact Hchild|]. split.
  - intros Hl. rewrite Hchild, (jsPlusOne_safe _ Hl). reflexivity.
  - apply (EditAt_findNode _ _ _ _ _ Hb Hs). intros y ys [-> ->] Hy.
    change [x; mkNode (rnd n) newTitle (level x) []]
      with ([x] ++ [mkNode (rnd n) newTitle (level x) []]).
    rewrite findNode_app, (proj2 (findNode_None (rnd n) [x])).
    + rewrite findNode_cons, String.eqb_refl. reflexivity.
    + rewrite ids_node. simpl. now rewrite app_nil_r.
Qed.

Lemma inserted_node_is_found_witness :
  NoDup (ids demoForest) /\
  findNode "c" demoForest = Some (mkNode "c" "Customs" 2 []) /\
  ~ In (demoDraws O) (ids demoForest) /\
  safeLevel 2 = true /\
  findNode "i" (fst (handleAddChildJs demoDraws demoForest "c" O))
  = Some (mkNode "i" newTitle 3 []).
Proof.
  assert (H : NoDup (ids demoForest)) by (vm_compute; nodup_list).
  assert (Hs : ~ In (demoDraws O) (ids demoForest)) by (vm_compute; notin_list).
  split; [exact H|]. split; [reflexivity|]. split; [exact Hs|].
  split; [reflexivity|].
  exact (proj1 (proj2
    (inserted_node_is_found demoDraws "c" demoForest _ O H eq_refl Hs)) eq_refl).
Defined.

(** ** Inserting twice at the same target *)

Section Twice.
Variable rnd : nat -> string.
Variable a : string.

Lemma findIndex_prefix l1 x l2 l2' :
  findIndex a (l1 ++ x :: l2) = Some (List.length l1) ->
  findIndex a (l1 ++ x :: l2') = Some (List.length l1).
Proof.
  induction l1 as [|y l1 IH]; simpl.
  - destruct (String.eqb (id x) a); [reflexivity|].
    destruct (findIndex a l2); discriminate.
  - destruct (String.eqb (id y) a); [discriminate|].
    destruct (findIndex a (l1 ++ x :: l2)) as [k|]; [|discriminate].
    intros [= ->]. now rewrite IH.
Qed.

(** Without a top-level match, the top-level ids stay as they are. *)
Lemma addSiblingRecursive_keeps_None f : forall n,
  findIndex a f = None ->
  findIndex a (fst (addSiblingRecursive rnd a f n)) = None.
Proof.
  induction f as [|[i t l cs] r IH]; intros n Hf; [reflexivity|].
  destruct (addSiblingRecursive_cons rnd _ _ _ n Hf) as [Hr ->].
  rewrite addSiblingNode_eq. cbn [fst snd].
  rewrite findIndex_cons in *. simpl id in *.
  destruct (String.eqb i a); [discriminate|]. now rewrite IH.
Qed.

Lemma addSiblingRecursive_twice f :
  NoDup (ids f) -> forall x, findNode a f = Some x -> forall n,
  snd (addSiblingRecursive rnd a (fst (addSiblingRecursive rnd a f n)) (S n))
  = S (S n) /\
  EditAt (fun y ys =>
            y = x /\
            ys = [x; mkNode (rnd (S n)) newTitle (level x) [];
                  mkNode (rnd n) newTitle (level x) []])
         f (fst (addSiblingRecursive rnd a
                   (fst (addSiblingRecursive rnd a f n)) (S n))).
Proof.
  induction f as [|i t l cs r IHcs IHr] using forest_ind; [discriminate|].
  intros Hnd x Hx n.
  destruct (findIndex a (mkNode i t l cs :: r)) as [k|] eqn:Ek.
  - destruct (findIndex_nth_error _ _ _ Ek) as (l1 & y & l2 & Hf & Hk & Hy & _).
    rewrite Hf in *. subst k.
    rewrite (addSiblingRecursive_found rnd a l1 y l2 n Ek). cbn [fst snd].
    rewrite (addSiblingRecursive_found rnd a l1 y _ (S n)
               (findIndex_prefix _ _ _ _ Ek)).
    simpl. split; [reflexivity|].
    pose proof (findNode_top _ _ _ Hnd) as Ht. rewrite Hy, Hx in Ht.
    injection Ht as ->.
    apply (edit_here _ l1 y [y; _; _] l2). split; reflexivity.
  - pose proof (addSiblingRecursive_keeps_None _ n Ek) as Ek1.
    destruct (addSiblingRecursive_cons rnd _ _ _ n Ek) as [Er E1].
    rewrite E1 in *. rewrite addSiblingNode_eq in *. cbn [fst snd] in *.
    destruct (addSiblingRecursive_cons rnd _ _ _ (S n) Ek1) as [_ ->].
    rewrite addSiblingNode_eq. cbn [fst snd].
    apply NoDup_ids_cons in Hnd.
    destruct Hnd as (Hics & Hir & Hcs & Hr & Hdisj).
    rewrite findNode_cons in Hx. rewrite findIndex_cons in Ek. simpl in Ek.
    destruct (String.eqb i a); [discriminate|].
    destruct (findNode a cs) as [y|] eqn:E.
    + injection Hx as <-. pose proof (proj2 (findNode_Some _ _ _ E)) as Hin.
      destruct (addSiblingRecursive_present rnd a cs Hcs _ E n) as [Hs1 _].
      destruct (IHcs Hcs _ eq_refl n) as [Hs He].
      rewrite Hs1, (addSiblingRecursive_absent rnd a r (Hdisj _ Hin)). cbn [fst snd].
      rewrite Hs, (addSiblingRecursive_absent rnd a r (Hdisj _ Hin)). simpl.
      split; [reflexivity|]. now apply EditAt_child.
    + apply findNode_None in E.
      rewrite (addSiblingRecursive_absent rnd a cs E). cbn [fst snd].
      rewrite (addSiblingRecursive_absent rnd a cs E). cbn [fst snd].
      destruct (IHr Hr _ Hx n) as [Hs He].
      split; [exact Hs|]. now apply EditAt_cons.
Qed.
End Twice.

(** In a forest with unique ids that contains a node [x] with the id, two
    successive insertChild calls append two children after those [x] has, in
    the order of the calls; any drawn ids will do.  Both have the JS number
    sum of the level of [x] and 1 as their level, which is the level of [x]
    plus 1 when that level is an integer from -2^53 up to, not including,
    2^53. *)
Theorem insert_child_twice_appends_in_order rnd a f x n :
  NoDup (ids f) -> findNode a f = Some x ->
  let f1 := fst (handleAddChildJs rnd f a n) in
  snd (handleAddChildJs rnd f1 a (S n)) = S (S n) /\
  EditAt (fun y ys =>
            y = x /\
            ys = [mkNode (id x) (title x) (level x)
                    (children x
                       ++ [mkNode (rnd n) newTitle (jsPlusOne (level x)) [];
                           mkNode (rnd (S n)) newTitle (jsPlusOne (level x)) []])])
         f (fst (handleAddChildJs rnd f1 a (S n))) /\
  (safeLevel (level x) = true ->
   EditAt (fun y ys =>
             y = x /\
             ys = [mkNode (id x) (title x) (level x)
                     (children x ++ [mkNode (rnd n) newTitle (level x + 1) [];
                                     mkNode (rnd (S n)) newTitle (level x + 1) []])])
          f (fst (handleAddChildJs rnd f1 a (S n)))).
Proof.
  intros Hnd Hx f1.
  destruct (addRecursiveJs_twice rnd a f Hnd x Hx n) as [Hs He].
  split; [exact Hs|]. split; [exact He|].
  intros Hl. rewrite (jsPlusOne_safe _ Hl) in He. exact He.
Qed.

Lemma insert_child_twice_appends_in_order_witness :
  NoDup (ids demoForest) /\
  findNode "b" demoForest = Some (mkNode "b" "Budget" 1 []) /\
  safeLevel 1 = true /\
  EditAt (fun y ys =>
            y = mkNode "b" "Budget" 1 [] /\
            ys = [mkNode "b" "Budget" 1
                    [mkNode "i" newTitle 2 []; mkNode "9" newTitle 2 []]])
    demoForest
    [mkNode "a" "Arrival" 1
       [mkNode "c" "Customs" 2 []; mkNode "d" "Transit" 2 []];
     mkNode "b" "Budget" 1
       [mkNode "i" newTitle 2 []; mkNode "9" newTitle 2 []]].
Proof.
  assert (H : NoDup (ids demoForest)) by (vm_compute; nodup_list).
  split; [exact H|]. split; [reflexivity|]. split; [reflexivity|].
  exact (proj2 (proj2 (insert_child_twice_appends_in_order demoDraws "b"
                         demoForest _ O H eq_refl)) eq_refl).
Defined.

(** In a forest with unique ids that contains a node [x] with the id, two
    successive insertSibling calls leave the node of the second call right
    after [x] and the node of the first call after it: the newest sibling is
    the nearest; any drawn ids will do. *)
Theorem insert_sibling_twice_newest_first rnd a f x n :
  NoDup (ids f) -> findNode a f = Some x ->
  let f1 := fst (handleAddSibling rnd f a n) in
  snd (handleAddSibling rnd f1 a (S n)) = S (S n) /\
  EditAt (fun y ys =>
            y = x /\
            ys = [x; mkNode (rnd (S n)) newTitle (level x) [];
                  mkNode (rnd n) newTitle (level x) []])
         f (fst (handleAddSibling rnd f1 a (S n))).
Proof. intros Hnd Hx. exact (addSiblingRecursive_twice rnd a f Hnd x Hx n). Qed.

Lemma insert_sibling_twice_newest_first_witness :
  NoDup (ids demoForest) /\
  findNode "c" demoForest = Some (mkNode "c" "Customs" 2 []) /\
  fst (handleAddSibling demoDraws
         (fst (handleAddSibling demoDraws demoForest "c" O)) "c" 1%nat)
  = [mkNode "a" "Arrival" 1
       [mkNode "c" "Customs" 2 []; mkNode "9" newTitle 2 [];
        mkNode "i" newTitle 2 []; mkNode "d" "Transit" 2 []];
     mkNode "b" "Budget" 1 []] /\
  snd (handleAddSibling demoDraws
         (fst (handleAddSibling demoDraws demoForest "c" O)) "c" 1%nat) = 2%nat.
Proof.
  assert (H : NoDup (ids demoForest)) by (vm_compute; nodup_list).
  split; [exact H|]. split; [reflexivity|]. split; [reflexivity|].
  exact (proj1 (insert_sibling_twice_newest_first demoDraws "c" demoForest _ O
                  H eq_refl)).
Defined.

(** * Properties of the application shell *)

Lemma articleCount_levels f :
  levelsOk f = true -> articleCount f = List.length f.
Proof.
  unfold levelsOk, articleCount.
  induction f as [|[i t l cs] r IH]; [reflexivity|].
  intros H. apply levelsFrom_cons in H. destruct H as (-> & _ & Hr).
  simpl. now rewrite IH.
Qed.

(** On an outline that satisfies the level invariant, the number of articles
    announced on the 'done' screen is the number of top-level sections. *)
Theorem article_count_is_section_count f :
  levelsOk f = true -> articleCount f = List.length f.
Proof. apply articleCount_levels. Qed.

Lemma article_count_is_section_count_witness :
  levelsOk demoForest = true /\ articleCount demoForest = 2%nat.
Proof.
  split; [reflexivity|].
  exact (article_count_is_section_count demoForest eq_refl).
Defined.

Lemma articleCount_cons x r :
  articleCount (x :: r) =
  ((if Z.eqb (level x) 1 then 1 else 0) + articleCount r)%nat.
Proof. unfold articleCount. simpl. now destruct (Z.eqb (level x) 1). Qed.

(** On every forest, rename and insertChild leave the number of announced
    articles as it is, wherever the target is, and appendTopLevel raises it
    by one. *)
Theorem article_count_under_edits rnd a f :
  (forall t, articleCount (rename f a t) = articleCount f) /\
  (forall n, articleCount (fst (handleAddChild rnd f a n)) = articleCount f) /\
  (forall n, articleCount (fst (appendTopLevel rnd f n))
             = (articleCount f + 1)%nat).
Proof.
  split; [|split].
  - intros t'. induction f as [|[i t l cs] r IH]; [reflexivity|].
    rewrite rename_cons, !articleCount_cons, IH.
    now destruct (String.eqb i a).
  - unfold handleAddChild.
    induction f as [|[i t l cs] r IH]; intros n; [reflexivity|].
    rewrite addRecursive_cons, addNode_eq. cbn [fst snd].
    rewrite !articleCount_cons, IH. now destruct (String.eqb i a).
  - intros n. unfold articleCount. simpl. rewrite filter_app, List.length_app.
    reflexivity.
Qed.

Import App.

Lemma fire_consistent rnd e s s' :
  consistent s -> fire rnd e s = Some s' -> consistent s'.
Proof.
  destruct s as [[st loc o ld url] p d]. unfold consistent. simpl.
  intros (H1 & H2 & H3 & H4) H.
  destruct e; simpl in H;
    destruct st; try discriminate H;
    destruct ld; try discriminate H;
    destruct p; try discriminate H;
    injection H as <-; simpl;
    repeat split; intros; try congruence; try discriminate;
    try (exfalso; intuition congruence); intuition congruence.
Qed.

Lemma start_consistent n : consistent (start n).
Proof.
  unfold consistent, start. simpl. repeat split; intros; congruence.
Qed.

Lemma runEvents_consistent rnd es : forall s s',
  consistent s -> runEvents rnd es s = Some s' -> consistent s'.
Proof.
  induction es as [|e rest IH]; intros s s' Hs H; simpl in H.
  - now injection H as <-.
  - destruct (fire rnd e s) as [s1|] eqn:E; [|discriminate].
    exact (IH _ _ (fire_consistent _ _ _ _ Hs E) H).
Qed.

(** In every state a session reaches, the loading flag is up exactly while
    a request is awaited, the 'generating' screen shows exactly while the
    content request is awaited, an outline request is awaited on the 'input'
    screen only, and the 'done' screen always has a download url. *)
Theorem session_is_consistent rnd es n s :
  runEvents rnd es (start n) = Some s -> consistent s.
Proof. apply runEvents_consistent, start_consistent. Qed.

Lemma session_is_consistent_witness :
  runEvents demoDraws
    [EvSubmit "Chengdu"; EvOutlineOk demoForest; EvEdit (OpInsertChild "b");
     EvGenerate; EvContentOk "blob:1"] (start O)
  = Some (mkSys (mkState StepDone "Chengdu"
                   [mkNode "a" "Arrival" 1
                      [mkNode "c" "Customs" 2 []; mkNode "d" "Transit" 2 []];
                    mkNode "b" "Budget" 1 [mkNode "i" newTitle 2 []]]
                   false (Some "blob:1")) Idle 1) /\
  downloadUrl
    (mkState StepDone "Chengdu"
       [mkNode "a" "Arrival" 1
          [mkNode "c" "Customs" 2 []; mkNode "d" "Transit" 2 []];
        mkNode "b" "Budget" 1 [mkNode "i" newTitle 2 []]]
       false (Some "blob:1")) <> None.
Proof.
  assert (E : runEvents demoDraws
    [EvSubmit "Chengdu"; EvOutlineOk demoForest; EvEdit (OpInsertChild "b");
     EvGenerate; EvContentOk "blob:1"] (start O)
  = Some (mkSys (mkState StepDone "Chengdu"
                   [mkNode "a" "Arrival" 1
                      [mkNode "c" "Customs" 2 []; mkNode "d" "Transit" 2 []];
                    mkNode "b" "Budget" 1 [mkNode "i" newTitle 2 []]]
                   false (Some "blob:1")) Idle 1)) by reflexivity.
  split; [exact E|].
  exact (proj2 (proj2 (proj2 (session_is_consistent demoDraws _ O _ E))) eq_refl).
Defined.

Lemma fire_levels rnd e s s' :
  levelsOk (outline (app s)) = true ->
  responsesLevelsOk [e] = true ->
  fire rnd e s = Some s' ->
  levelsOk (outline (app s')) = true.
Proof.
  destruct s as [[st loc o ld url] p d]. simpl. intros Ho He H.
  destruct e; simpl in H;
    destruct st; try discriminate H;
    destruct ld; try discriminate H;
    destruct p; try discriminate H;
    injection H as <-; simpl; try exact Ho;
    try (simpl in He; now rewrite andb_true_r in He);
    now apply applyOp_levels.
Qed.

Lemma runEvents_levels rnd es : forall s s',
  levelsOk (outline (app s)) = true ->
  responsesLevelsOk es = true ->
  runEvents rnd es s = Some s' ->
  levelsOk (outline (app s')) = true.
Proof.
  induction es as [|e rest IH]; intros s s' Ho He H; simpl in H.
  - now injection H as <-.
  - destruct (fire rnd e s) as [s1|] eqn:E; [|discriminate].
    unfold responsesLevelsOk in He. simpl in He.
    apply andb_true_iff in He. destruct He as [He1 He2].
    apply (IH s1 s'); [|exact He2|exact H].
    apply (fire_levels rnd e s s1 Ho); [|exact E].
    unfold responsesLevelsOk. simpl. now rewrite He1.
Qed.

(** If every outline the server returns satisfies the level invariant, the
    outline the session holds satisfies it in every state the session
    reaches, whatever is edited in between, and the number of articles
    announced is the number of top-level sections. *)
Theorem session_keeps_levels rnd es n s :
  responsesLevelsOk es = true ->
  runEvents rnd es (start n) = Some s ->
  levelsOk (outline (app s)) = true /\
  articleCount (outline (app s)) = List.length (outline (app s)).
Proof.
  intros He H.
  assert (Hl : levelsOk (outline (app s)) = true)
    by (apply (runEvents_levels rnd es (start n) s); auto).
  split; [exact Hl | now apply articleCount_levels].
Qed.

Lemma session_keeps_levels_witness :
  levelsOk
    (outline (app (mkSys (mkState StepOutline "Chengdu"
       [mkNode "a" "Arrival" 1
          [mkNode "c" "Customs" 2 [];
           mkNode "i" newTitle 2 []; mkNode "d" "Transit" 2 []];
        mkNode "b" "Budget" 1 []; mkNode "9" newTopTitle 1 []]
       false None) Idle 2))) = true.
Proof.
  refine (proj1 (session_keeps_levels demoDraws
    [EvSubmit "Chengdu"; EvOutlineOk demoForest; EvEdit (OpInsertSibling "c");
     EvEdit OpAppendTopLevel] O _ eq_refl _)).
  reflexivity.
Defined.

(** From the 'outline' screen of any state a session reaches, a content
    generation that fails brings back exactly the state before the click:
    nothing of the outline, the location or an earlier download url is lost.
    One that succeeds, followed by "back to editing", changes the download
    url only. *)
Theorem content_generation_round_trips rnd es n s url :
  runEvents rnd es (start n) = Some s ->
  step (app s) = StepOutline ->
  runEvents rnd [EvGenerate; EvContentFail] s = Some s /\
  runEvents rnd [EvGenerate; EvContentOk url; EvReturn] s
  = Some (mkSys (setDownloadUrl (Some url) (app s)) (pending s) (draws s)).
Proof.
  intros H Hst. apply (runEvents_consistent rnd es _ _ (start_consistent n)) in H.
  destruct s as [[st loc o ld u] p d]. unfold consistent in H. simpl in *.
  subst st. destruct H as (H1 & H2 & H3 & _).
  assert (Hp : p = Idle).
  { destruct p; [reflexivity | specialize (H3 eq_refl); discriminate
                 | pose proof (proj2 H2 eq_refl); discriminate]. }
  subst p.
  assert (Hl : ld = false).
  { destruct ld; [|reflexivity]. exfalso. now apply (proj1 H1). }
  subst ld. split; reflexivity.
Qed.

Lemma content_generation_round_trips_witness :
  runEvents demoDraws [EvGenerate; EvContentFail]
    (mkSys (mkState StepOutline "Chengdu" demoForest false None) Idle O)
  = Some (mkSys (mkState StepOutline "Chengdu" demoForest false None) Idle O).
Proof.
  refine (proj1 (content_generation_round_trips demoDraws
    [EvSubmit "Chengdu"; EvOutlineOk demoForest] O _ "blob:1" _ _));
    reflexivity.
Defined.

(** * Further compositions and the first match *)

(** rename and deleteSubtree commute, for equal or different ids, on every
    forest: deleting first and renaming afterwards gives the forest that
    renaming first and deleting afterwards gives. *)
Theorem rename_delete_commute a b t' f :
  handleDeleteNode (rename f a t') b = rename (handleDeleteNode f b) a t'.
Proof.
  induction f as [|i t l cs r IHcs IHr] using forest_ind; [reflexivity|].
  rewrite rename_cons, handleDeleteNode_cons.
  destruct (String.eqb i a) eqn:Ea, (String.eqb i b) eqn:Eb;
    rewrite ?handleDeleteNode_cons, ?rename_cons, ?Ea, ?Eb, ?IHcs, ?IHr;
    try reflexivity.
Qed.

Lemma findIndex_first a l1 x l2 :
  (forall y, In y l1 -> id y <> a) -> id x = a ->
  findIndex a (l1 ++ x :: l2) = Some (List.length l1).
Proof.
  intros Hl1 Hx. induction l1 as [|y l1 IH]; simpl.
  - now rewrite (proj2 (String.eqb_eq _ _) Hx).
  - destruct (String.eqb_spec (id y) a) as [E|_].
    + exfalso. apply (Hl1 y); [now left | exact E].
    + rewrite IH; [reflexivity|]. intros z Hz. apply Hl1. now right.
Qed.

(** On every forest, when a top-level node has the id, insertSibling puts
    the new node right after the first top-level node with the id and stops:
    it draws once and touches no other node, also when more nodes, at the
    top level or deeper, have the same id. *)
Theorem insert_sibling_first_match rnd a l1 x l2 n :
  (forall y, In y l1 -> id y <> a) -> id x = a ->
  handleAddSibling rnd (l1 ++ x :: l2) a n
  = (l1 ++ x :: mkNode (rnd n) newTitle (level x) [] :: l2, S n).
Proof.
  intros Hl1 Hx. apply addSiblingRecursive_found.
  now apply findIndex_first.
Qed.

Lemma insert_sibling_first_match_witness :
  handleAddSibling demoDraws
    ([mkNode "a" "Arrival" 1 [mkNode "x" "Inner" 2 []]]
       ++ mkNode "x" "First" 1 [] :: [mkNode "x" "Second" 1 []]) "x" O
  = ([mkNode "a" "Arrival" 1 [mkNode "x" "Inner" 2 []]]
       ++ mkNode "x" "First" 1 [] :: mkNode "i" newTitle 1 []
       :: [mkNode "x" "Second" 1 []], 1%nat).
Proof.
  apply (insert_sibling_first_match demoDraws "x"
           [mkNode "a" "Arrival" 1 [mkNode "x" "Inner" 2 []]]
           (mkNode "x" "First" 1 []) [mkNode "x" "Second" 1 []] O).
  - intros y [<-|[]]. discriminate.
  - reflexivity.
Defined.
